(** * ant_tracker: ROI detection scripts

    A shallow embedding of [scripts/roidetect.py],
    [scripts/bridgedetect.py] and [scripts/roilabel.py], and the properties
    of their steps.

    Conventions of the embedding.
    - Python exceptions are values of [exn], named after the Python class;
      a function that may raise returns a [result].
    - Pixel coordinates are numpy integers, modelled as [Z]; where the
      source computes with them the fixed width is written out ([wrap]).
    - Calls into OpenCV, scikit-learn, scikit-image and sknw are not part of
      the repository.  Their results are inputs of the model (a graph, the
      detected markers, the cluster centres) or parameters of a function
      (the homography solver, the convex hull, which is used through its
      contract). *)

From stdpp Require Import gmap strings list sorting pretty.
From Stdlib Require Import ZArith Lia.

Local Open Scope Z_scope.

(* ================================================================== *)
(** ** Python exceptions and results *)

Module Py.

Record exn := Raise { exn_name : string }.

Definition TypeError : exn := Raise "TypeError".
Definition ValueError : exn := Raise "ValueError".
Definition KeyError : exn := Raise "KeyError".
Definition NameError : exn := Raise "NameError".
Definition SystemExit : exn := Raise "SystemExit".
(** [networkx.NetworkXError] and [cv2.error], raised inside the libraries. *)
Definition NetworkXError : exn := Raise "NetworkXError".
Definition cv2_error : exn := Raise "cv2.error".
(** Error kinds that the specification names. *)
Definition TopologyError : exn := Raise "TopologyError".

Inductive result (A : Type) : Type :=
| Ok (a : A)
| Err (e : exn).
Arguments Ok {A} a.
Arguments Err {A} e.

Definition bind {A B} (r : result A) (k : A → result B) : result B :=
  match r with
  | Ok a => k a
  | Err e => Err e
  end.

Definition raises {A} (r : result A) : Prop := ∃ e, r = Err e.

End Py.
Export Py.

Notation "x ←! r ; k" := (Py.bind r (λ x, k))
  (at level 20, r at level 100, k at level 200, only parsing, right associativity).

(** A 2D integer point, a row of an [(n, 2)] integer array. *)
Abbreviation point := (Z * Z)%type.

(* ================================================================== *)
(** ** roidetect.nodes: junctions of the skeleton graph *)

Module Nodes.

(** The [networkx.Graph] returned by [sknw.build_sknw]: for every node its
    ['o'] attribute (the representative coordinate) and the keys of its
    adjacency dict, in the insertion order of the node dict. *)
Record attrs := { o : point; adj : list nat }.
Definition Graph : Type := list (nat * attrs).

Fixpoint node_get (g : Graph) (i : nat) : option attrs :=
  match g with
  | [] => None
  | (j, a) :: g' => if Nat.eqb j i then Some a else node_get g' i
  end.

(** [graph.neighbors(i)]: raises when [i] is not a node. *)
Definition neighbors (g : Graph) (i : nat) : result (list nat) :=
  match node_get g i with
  | Some a => Ok (adj a)
  | None => Err NetworkXError
  end.

Definition forget (i : nat) (na : nat * attrs) : nat * attrs :=
  (na.1, {| o := o na.2; adj := filter (λ k, k ≠ i) (adj na.2) |}).

(** [copy.remove_node(i)]: drops the node and the edges that touch it. *)
Definition remove_node (g : Graph) (i : nat) : result Graph :=
  match node_get g i with
  | Some _ => Ok (forget i <$> filter (λ na, na.1 ≠ i) g)
  | None => Err NetworkXError
  end.

(** The loop of lines 95-98: the degree is read in [graph], the node is
    removed from [copy]. *)
Fixpoint prune (graph : Graph) (ids : list nat) (copy : Graph) : result Graph :=
  match ids with
  | [] => Ok copy
  | i :: ids' =>
      conn ←! neighbors graph i;
      copy' ←! (if bool_decide (length conn < 3)%nat then remove_node copy i else Ok copy);
      prune graph ids' copy'
  end.

(** [nodes], from the graph on: lines 90-102. *)
Definition nodes (graph : Graph) : result (list point) :=
  let node_centers := (λ na, o na.2) <$> graph in
  new_nodes ←! prune graph (seq 0 (length node_centers)) graph;
  Ok ((λ na, o na.2) <$> new_nodes).

(** The degree of a node record: the number of its neighbours. *)
Definition degree (a : attrs) : nat := length (adj a).

(** The part of a graph that [nodes] reads back: keys and coordinates. *)
Definition kv (g : Graph) : list (nat * point) := (λ na, (na.1, o na.2)) <$> g.

(** A node survives the loop when its degree in [graph] is at least 3. *)
Definition keep (graph : Graph) (i : nat) : Prop :=
  ∃ a, node_get graph i = Some a ∧ (3 ≤ degree a)%nat.

#[export] Instance keep_dec graph i : Decision (keep graph i).
Proof.
  unfold keep. destruct (node_get graph i) as [a|].
  - destruct (decide (3 ≤ degree a)%nat) as [H|H].
    + left. eauto.
    + right. intros (b & [= <-] & ?). done.
  - right. intros (b & [=] & _).
Defined.

(** A junction where three branches meet, with the three branch tips. *)
Definition star : Graph :=
  [(0%nat, {| o := (50, 50); adj := [1; 2; 3]%nat |});
   (1%nat, {| o := (10, 50); adj := [0%nat] |});
   (2%nat, {| o := (70, 20); adj := [0%nat] |});
   (3%nat, {| o := (70, 80); adj := [0%nat] |})].

End Nodes.

(* ================================================================== *)
(** ** numpy: fixed-width integers, arrays of arrays, roll, argmax *)

Module Numpy.

(** Two's-complement wrap-around of a [w]-bit signed integer. *)
Definition wrap (w : Z) (z : Z) : Z := (z + 2 ^ (w - 1)) `mod` 2 ^ w - 2 ^ (w - 1).
Definition wrap64 : Z → Z := wrap 64.
Definition wrap32 : Z → Z := wrap 32.

(** [IndexError], raised by an index out of range. *)
Definition IndexError : exn := Raise "IndexError".

(** A double obtained as [np.sqrt] of an integer: the square root of the
    radicand [v] when [0 <= v], NaN otherwise.  On radicands below [2^52]
    the rounded square root is strictly increasing, so two such doubles
    compare as their radicands do. *)
Inductive float : Type :=
| NaN
| Sqrt (v : Z).

Definition np_sqrt (v : Z) : float := if bool_decide (v < 0) then NaN else Sqrt v.

Definition isnan (x : float) : bool :=
  match x with NaN => true | Sqrt _ => false end.

(** [x <= y] on doubles: false as soon as one side is NaN. *)
Definition float_le (x y : float) : bool :=
  match x, y with
  | Sqrt a, Sqrt b => bool_decide (a ≤ b)
  | _, _ => false
  end.

(** The scan of [np.argmax] over doubles, after its first element: [mp] is
    the current maximum, [max_ind] its index, [i] the index of the head of
    the rest.  A NaN ends the scan and wins. *)
Fixpoint argmax_scan (mp : float) (max_ind i : nat) (rest : list float) : nat :=
  match rest with
  | [] => max_ind
  | x :: rest' =>
      if float_le x mp then argmax_scan mp max_ind (S i) rest'
      else if isnan x then i
      else argmax_scan x i (S i) rest'
  end.

(** [np.argmax(a)]: the first index of the maximum; an empty sequence
    raises [ValueError]. *)
Definition argmax (a : list float) : result nat :=
  match a with
  | [] => Err ValueError
  | x :: rest => Ok (if isnan x then 0%nat else argmax_scan x 0 1 rest)
  end.

(** [np.roll(a, shift, axis=0)]: row [k] moves to row [(k + shift) mod n]. *)
Definition roll {A} (a : list A) (shift : Z) : list A :=
  rotate (Z.to_nat ((- shift) `mod` Z.of_nat (length a))) a.

(** [np.array(l)] of a list of arrays whose shapes are [shapes]: a ragged
    list raises [ValueError] from numpy 1.24 on ([ragged_raises]) and gives
    an array of objects before. *)
Definition np_array {A} (ragged_raises : bool) (shape : A → list nat) (l : list A)
    : result (list A) :=
  match l with
  | [] => Ok l
  | x :: l' =>
      if bool_decide (Forall (λ y, shape y = shape x) l') then Ok l
      else if ragged_raises then Err ValueError else Ok l
  end.

End Numpy.

(* ================================================================== *)
(** ** roidetect.centers: detected junctions in reference order *)

Module Centers.
Import Numpy.

(** The int64 value under [np.sqrt] at line 119. *)
Definition radicand (r p : point) : Z :=
  let dx := wrap64 (r.1 - p.1) in
  let dy := wrap64 (r.2 - p.2) in
  wrap64 (Z.abs (wrap64 (wrap64 (dx ^ 2) + wrap64 (dy ^ 2)))).

(** The inner loop, lines 118-122.  [min_dist] is kept as the radicand of
    the current minimum: it never exceeds [10000 ^ 2], so [dist < min_dist]
    holds exactly when the radicand of [dist] is a non-negative integer
    below that of [min_dist] (below [10 ^ 8] the rounded square roots are
    strictly increasing, from [10 ^ 8] on they are at least [10000], and NaN
    compares false). *)
Fixpoint scan (r : point) (ps : list point) (j : nat) (min_dist : Z) (index : option nat)
    : option nat :=
  match ps with
  | [] => index
  | p :: ps' =>
      let dist := radicand r p in
      if bool_decide (0 ≤ dist < min_dist) then scan r ps' (S j) dist (Some j)
      else scan r ps' (S j) min_dist index
  end.

(** Lines 116-122 for one reference point. *)
Definition closest (r : point) (ps : list point) : option nat :=
  scan r ps 0 (10000 ^ 2) None.

(** What [ps[index]] is for the array [ps]: a row for an integer index,
    and for [None] (numpy's [newaxis]) the whole array under one more
    leading axis. *)
Inductive item : Type :=
| Row (p : point)
| NewAxis (a : list point).

Definition getitem (ps : list point) (index : option nat) : result item :=
  match index with
  | Some j =>
      match ps !! j with
      | Some p => Ok (Row p)
      | None => Err IndexError
      end
  | None => Ok (NewAxis ps)
  end.

(** The shape of [ps] as [nodes] returns it: [(n, 2)], and [(0,)] when
    there is no junction. *)
Definition array_shape (a : list point) : list nat :=
  match a with
  | [] => [0%nat]
  | _ => [length a; 2%nat]
  end.

Definition shape (it : item) : list nat :=
  match it with
  | Row _ => [2%nat]
  | NewAxis a => 1%nat :: array_shape a
  end.

(** The outer loop, lines 115-123. *)
Fixpoint gather (reference ps : list point) : result (list item) :=
  match reference with
  | [] => Ok []
  | r :: reference' =>
      it ←! getitem ps (closest r ps);
      newpoints ←! gather reference' ps;
      Ok (it :: newpoints)
  end.

Definition centers (ragged_raises : bool) (reference ps : list point)
    : result (list item) :=
  newpoints ←! gather reference ps;
  np_array ragged_raises shape newpoints.

(** The squared Euclidean distance of two points. *)
Definition dist2 (r p : point) : Z := (r.1 - p.1) ^ 2 + (r.2 - p.2) ^ 2.

(** Coordinates far inside the int64 range, as pixel positions are. *)
Definition small (p : point) : Prop := Z.abs p.1 < 2 ^ 30 ∧ Z.abs p.2 < 2 ^ 30.

(** The item that the body of the outer loop appends for [r]. *)
Definition pick (r : point) (ps : list point) : item :=
  match closest r ps with
  | Some j => match ps !! j with Some p => Row p | None => NewAxis ps end
  | None => NewAxis ps
  end.

(** What the specification asks of the correspondence: one detected point
    per canonical junction, a nearest one. *)
Definition nearest_matching (reference ps : list point) (newpoints : list item) : Prop :=
  length newpoints = length reference ∧
  ∀ i r, reference !! i = Some r →
    ∃ q, newpoints !! i = Some (Row q) ∧ q ∈ ps ∧
         ∀ p, p ∈ ps → dist2 r q ≤ dist2 r p.

(** [q] is the first of the detected points that are nearest to [r]. *)
Definition first_nearest (r : point) (ps : list point) (q : point) : Prop :=
  ∃ j, ps !! j = Some q ∧
       (∀ p, p ∈ ps → dist2 r q ≤ dist2 r p) ∧
       (∀ i p, (i < j)%nat → ps !! i = Some p → dist2 r q < dist2 r p).

End Centers.

(* ================================================================== *)
(** ** cv2.convexHull *)

Module Hull.

(** Twice the signed area of the triangle [o a b]. *)
Definition cross (o a b : point) : Z :=
  (a.1 - o.1) * (b.2 - o.2) - (a.2 - o.2) * (b.1 - o.1).

(** [p] lies on the closed segment from [a] to [b]. *)
Definition on_segment (a b p : point) : bool :=
  bool_decide (cross a b p = 0 ∧
               (p.1 - a.1) * (p.1 - b.1) + (p.2 - a.2) * (p.2 - b.2) ≤ 0).

(** [p] lies in the closed triangle [a b c], which is not flat. *)
Definition in_triangle (a b c p : point) : bool :=
  bool_decide (cross a b c ≠ 0 ∧
               ((0 ≤ cross a b p ∧ 0 ≤ cross b c p ∧ 0 ≤ cross c a p) ∨
                (cross a b p ≤ 0 ∧ cross b c p ≤ 0 ∧ cross c a p ≤ 0))).

(** [p] lies in the convex hull of [others]: on a segment or in a triangle
    spanned by them. *)
Definition covered (others : list point) (p : point) : bool :=
  existsb (λ a, existsb (λ b,
    on_segment a b p || existsb (λ c, in_triangle a b c p) others) others) others.

(** A corner of the hull of [pts]: a point of [pts] that the other points do
    not cover. *)
Definition is_corner (pts : list point) (p : point) : bool :=
  negb (covered (filter (λ q, q ≠ p) pts) p).

Definition corners (pts : list point) : list point :=
  filter (λ p, is_corner pts p) (remove_dups pts).

Definition lex_le (a b : point) : Prop := a.1 < b.1 ∨ (a.1 = b.1 ∧ a.2 ≤ b.2).

#[local] Instance lex_le_dec a b : Decision (lex_le a b).
Proof. unfold lex_le. apply _. Defined.

(** [b] is not clockwise of [a], seen from [p0]. *)
Definition ccw (p0 a b : point) : Prop := 0 ≤ cross p0 a b.

#[local] Instance ccw_dec p0 a b : Decision (ccw p0 a b).
Proof. unfold ccw. apply _. Defined.

(** [cv2.convexHull(points)] belongs to OpenCV, and the corner its result
    starts at depends on OpenCV's scan and on the order of the input.  What
    is assumed of it is its contract: the result lists input points, none
    of them twice, and every corner of the hull is among them. *)
Definition hull_contract (convexHull : list point → list point) : Prop :=
  ∀ pts, NoDup (convexHull pts) ∧
         (∀ p, p ∈ convexHull pts → p ∈ pts) ∧
         (∀ p, p ∈ pts → is_corner pts p = true → p ∈ convexHull pts).

Definition lex_ge (a b : point) : Prop := lex_le b a.

#[local] Instance lex_ge_dec a b : Decision (lex_ge a b).
Proof. unfold lex_ge. apply _. Defined.

(** A function that meets the contract: the corners from the last one in
    x-then-y order on, counter-clockwise for a y axis that points up. *)
Definition hull_from_right (pts : list point) : list point :=
  match merge_sort lex_ge (corners pts) with
  | [] => []
  | p0 :: rest => p0 :: merge_sort (ccw p0) rest
  end.

End Hull.

(* ================================================================== *)
(** ** roidetect.vertices: one polygon per junction *)

Module Vertices.
Import Numpy Centers Hull.

(** [np.diff(poly, axis=0, append=poly[0:1])] on the int32 rows that
    [cv2.convexHull] returns: row [k] is the step from vertex [k] to the
    next one, the last row the step back to vertex 0. *)
Definition diff (poly : list point) : list point :=
  zip_with (λ q p, (wrap32 (q.1 - p.1), wrap32 (q.2 - p.2))) (rotate 1 poly) poly.

(** [np.sqrt((d ** 2).sum(axis=1))]: the squares wrap at 32 bits, their sum
    is taken in the platform integer (64 bits). *)
Definition segdists (poly : list point) : list float :=
  (λ d, np_sqrt (wrap32 (d.1 ^ 2) + wrap32 (d.2 ^ 2))) <$> diff poly.

(** Lines 170-173: the longest edge first. *)
Definition normalize (poly : list point) : result (list point) :=
  index ←! argmax (segdists poly);
  Ok (roll poly (- Z.of_nat index)).

(** The labels of the right-hand junctions, line 176. *)
Definition chirality : gset Z :=
  list_to_set [5; 3; 0; 2; 6; 50; 32; 20; 212; 211; 60; 41; 42; 121; 122; 111; 112].

(** Lines 176-177. *)
Definition relabel (label : Z) (rolled : list point) : list point :=
  if bool_decide (label ∈ chirality) then roll rolled 2 else rolled.

(** [Dict[i]]. *)
Definition Dict_get (Dict : gmap nat Z) (i : nat) : result Z :=
  match Dict !! i with
  | Some label => Ok label
  | None => Err KeyError
  end.

(** [newpoints[i, 1]] and [newpoints[i, 0]]: defined when row [i] of
    [newpoints] is a point. *)
Definition junction (it : item) : result point :=
  match it with
  | Row p => Ok p
  | NewAxis _ => Err IndexError
  end.

Section vertices.

(** [findNonZero centre]: the result of [cv2.findNonZero] on the contour
    image intersected with the circle of radius 40 drawn around [centre]
    (lines 156-159), [None] when no pixel is set. *)
Variable findNonZero : point → option (list point).

(** [KMeans index]: [KMeans(n_clusters=6).fit(index).cluster_centers_]
    truncated by [astype(int)] (lines 163-164); scikit-learn raises
    [ValueError] when there are fewer samples than clusters. *)
Variable KMeans : list point → result (list point).

(** [convexHull centers]: [cv2.convexHull(centers)] with the row-of-one
    axis of its result removed (lines 166-167). *)
Variable convexHull : list point → list point.

(** Lines 156-167 for one junction. *)
Definition hull_of (centre : point) : result (list point) :=
  match findNonZero centre with
  | None => Err TypeError
  | Some index =>
      centers ←! KMeans index;
      Ok (convexHull centers)
  end.

(** The body of the loop for junction [i], lines 156-177. *)
Definition polygon (Dict : gmap nat Z) (i : nat) (it : item) : result (list point) :=
  q ←! junction it;
  poly ←! hull_of (q.2, q.1);
  rolled ←! normalize poly;
  label ←! Dict_get Dict i;
  Ok (relabel label rolled).

Fixpoint polygons (Dict : gmap nat Z) (i : nat) (newpoints : list item)
    : result (list (list point)) :=
  match newpoints with
  | [] => Ok []
  | it :: newpoints' =>
      verts ←! polygon Dict i it;
      conn ←! polygons Dict (S i) newpoints';
      Ok (verts :: conn)
  end.

(** [vertices(cont, newpoints, Dict)], the contour image [cont] being read
    through [findNonZero]. *)
Definition vertices (ragged_raises : bool) (newpoints : list item) (Dict : gmap nat Z)
    : result (list (list point)) :=
  conn ←! polygons Dict 0 newpoints;
  np_array ragged_raises (λ verts, [length verts; 2%nat]) conn.

End vertices.

(** The length of the edge that leaves vertex [p] for vertex [q]. *)
Definition edge (q p : point) : float :=
  np_sqrt (wrap32 (wrap32 (q.1 - p.1) ^ 2) + wrap32 (wrap32 (q.2 - p.2) ^ 2)).

(** An image with two junctions at the same place, labelled 42 (a right
    junction) and 12. *)
Definition hexagon : list point :=
  [(140, 100); (120, 135); (80, 136); (60, 100); (80, 65); (120, 66)].

Definition two_junctions : list item := [Row (100, 100); Row (100, 100)].

Definition two_labels : gmap nat Z := <[0%nat := 42]> (<[1%nat := 12]> ∅).

Definition two_polygons : list (list point) :=
  [[(140, 100); (120, 135); (80, 136); (60, 100); (80, 65); (120, 66)];
   [(80, 136); (60, 100); (80, 65); (120, 66); (140, 100); (120, 135)]].

(** Six cluster centres around the junction at (100, 100), all within one
    pixel of the circle of radius 40, three of them 8 pixels from one
    another: the first lies inside the hull of the others. *)
Definition close_crossings : list point :=
  [(139, 100); (140, 108); (140, 92); (60, 100); (100, 140); (101, 60)].

(** Any two of the points are at least [d] apart. *)
Fixpoint separated (d : Z) (pts : list point) : bool :=
  match pts with
  | [] => true
  | p :: pts' => forallb (λ q, bool_decide (d ^ 2 ≤ dist2 p q)) pts' && separated d pts'
  end.

(** The points lie at a distance between [rlo] and [rhi] of [c]: on the
    circle that line 157 draws around [c], for [rlo] and [rhi] about 40. *)
Definition annulus (c : point) (rlo rhi : Z) (pts : list point) : bool :=
  forallb (λ p, bool_decide (rlo ^ 2 ≤ dist2 c p ≤ rhi ^ 2)) pts.

(** A pixel position in an image of less than 32768 rows and columns: the
    int32 arithmetic of lines 170-171 does not wrap on such vertices. *)
Definition coord15 (p : point) : Prop := 0 ≤ p.1 < 2 ^ 15 ∧ 0 ≤ p.2 < 2 ^ 15.

End Vertices.

(* ================================================================== *)
(** ** roidetect.warp: registration on the ARTag markers *)

Module Warp.

Section warp.

(** Images, marker outlines (the [(1, 4, 2)] float arrays of
    [aruco.detectMarkers]) and 3x3 matrices belong to OpenCV. *)
Variables Frame Quad Matrix : Type.

(** [centre x]: [np.average(x, axis=1)] of the four corners, as
    [astype(int)] truncates it at line 54. *)
Variable centre : Quad → point.

(** [cv2.findHomography(coord2, coord1)]: [None] when OpenCV raises
    [cv2.error], otherwise the matrix [M], which is Python's [None] when no
    homography was found. *)
Variable findHomography : list point → list point → option (option Matrix).

(** [cv2.warpPerspective(frame, M, (w, h))]: [None] when OpenCV raises. *)
Variable warpPerspective : Frame → Matrix → option Frame.

(** What [aruco.detectMarkers] returns for a frame: the outlines, and the
    ids, which are [None] when no marker was found. *)
Record detection := { corners : list Quad; ids : option (list Z) }.

(** The number of markers detected. *)
Definition n_markers (d : detection) : nat := length (corners d).

(** Line 45: iterating over [ids]. *)
Definition flat_ids (d : detection) : result (list Z) :=
  match ids d with
  | Some l => Ok l
  | None => Err TypeError
  end.

Definition id_le (x y : Z * point) : Prop := x.1 ≤ y.1.

#[local] Instance id_le_dec x y : Decision (id_le x y).
Proof. unfold id_le. apply _. Defined.

(** Line 46: [sorted(zip(flat_ids, flat_corners))].  The tuples are ordered
    by id; for two equal ids Python goes on to compare the two arrays, and
    the truth value of that comparison raises [ValueError]. *)
Definition sorted_pairs (l : list (Z * point)) : result (list (Z * point)) :=
  if bool_decide (NoDup l.*1) then Ok (merge_sort id_le l) else Err ValueError.

(** Lines 41-54, after the detection: the marker centres in id order. *)
Definition coord2 (d : detection) : result (list point) :=
  let flat_corners := centre <$> corners d in
  fl ←! flat_ids d;
  pair ←! sorted_pairs (zip fl flat_corners);
  Ok (pair.*2).

(** [warp(frame, coord1)], the detection in [frame] being [d]. *)
Definition warp (frame : Frame) (d : detection) (coord1 : list point)
    : result (Matrix * Frame) :=
  c2 ←! coord2 d;
  match findHomography c2 coord1 with
  | None => Err cv2_error
  | Some None => Err cv2_error
  | Some (Some M) =>
      match warpPerspective frame M with
      | None => Err cv2_error
      | Some result => Ok (M, result)
      end
  end.


End warp.

(** A solver that refuses fewer than four points and returns a matrix
    otherwise. *)
Definition four_or_refuse (c2 coord1 : list point) : option (option unit) :=
  if bool_decide (length c2 < 4)%nat then None else Some (Some ()).

(** Three markers, with ids 0, 1 and 2, and three reference centres. *)
Definition three_markers : detection point :=
  {| corners := [(10, 10); (200, 12); (11, 150)]; ids := Some [2; 0; 1] |}.

Definition three_references : list point := [(0, 0); (100, 0); (0, 100)].

(** The four markers of the arena, with ids 0 to 3, detected in the order
    2, 0, 3, 1, and the four reference centres. *)
Definition four_markers : detection point :=
  {| corners := [(10, 10); (200, 12); (205, 160); (11, 150)];
     ids := Some [2; 0; 3; 1] |}.

Definition four_references : list point := [(0, 0); (100, 0); (0, 100); (100, 100)].

(** The markers of [three_markers], detected in another order. *)
Definition three_markers_again : detection point :=
  {| corners := [(11, 150); (10, 10); (200, 12)]; ids := Some [1; 2; 0] |}.

End Warp.

(* ================================================================== *)
(** ** bridgedetect: the legacy red-threshold pipeline *)

Module Bridge.
Import Numpy.

Local Open Scope string_scope.

(** A region of interest as [convert_polygon_to_roi] builds it: a Python
    list of numbers. *)
Definition roi : Type := list Z.

Definition list_min (x : Z) (l : list Z) : Z := foldr Z.min x l.
Definition list_max (x : Z) (l : list Z) : Z := foldr Z.max x l.

(** [convert_polygon_to_roi(poly)], the points of [poly] being int32 rows.
    Unpacking the transposed, empty point list raises [ValueError]. *)
Definition convert_polygon_to_roi (poly : list point) : result roi :=
  match poly with
  | [] => Err ValueError
  | p :: poly' =>
      let x_left := list_min p.1 poly'.*1 in
      let y_top := list_min p.2 poly'.*2 in
      let x_right := list_max p.1 poly'.*1 in
      let y_bottom := list_max p.2 poly'.*2 in
      Ok [wrap32 (x_right - x_left); wrap32 (y_bottom - y_top); x_left; y_top]
  end.

(** ['%d,%d,%d,%d' % tuple(x)]: [TypeError] unless [x] has four items. *)
Definition format_roi (x : roi) : result string :=
  match x with
  | [a; b; c; d] => Ok (pretty a +:+ "," +:+ pretty b +:+ "," +:+ pretty c +:+ "," +:+ pretty d)
  | _ => Err TypeError
  end.

Fixpoint format_rois (rois : list roi) : result (list string) :=
  match rois with
  | [] => Ok []
  | x :: rois' =>
      s ←! format_roi x;
      ss ←! format_rois rois';
      Ok (s :: ss)
  end.

(** [sep.join(l)]. *)
Fixpoint join (sep : string) (l : list string) : string :=
  match l with
  | [] => ""
  | [s] => s
  | s :: l' => s +:+ sep +:+ join sep l'
  end.

Definition TAB : string := String (Ascii.ascii_of_nat 9) EmptyString.
Definition NL : string := String (Ascii.ascii_of_nat 10) EmptyString.

(** The files of the file system, by path, with their content. *)
Abbreviation files := (gmap string string).

Section save.

(** [os.path.abspath], which reads the working directory. *)
Variable abspath : string → string.

(** The text that line 67 writes. *)
Definition record (rois : list roi) (imagename : string) : result string :=
  quads ←! format_rois rois;
  Ok (abspath imagename +:+ TAB +:+ join TAB quads +:+ NL).

(** [open(outfile, 'a')] keeps the content, [open(outfile, 'w')] empties
    the file; both create it. *)
Definition open_file (fs : files) (outfile : string) (append : bool) : files :=
  match fs !! outfile with
  | Some _ => if append then fs else <[outfile := ""]> fs
  | None => <[outfile := ""]> fs
  end.

Definition write (fs : files) (outfile text : string) : files :=
  <[outfile := default "" (fs !! outfile) +:+ text]> fs.

(** [save_rois(rois, outfile, imagename, append)]: the file is opened
    before the text is formatted. *)
Definition save_rois (fs : files) (rois : list roi) (outfile imagename : string)
    (append : bool) : result unit * files :=
  let fs1 := open_file fs outfile append in
  match record rois imagename with
  | Ok text => (Ok (), write fs1 outfile text)
  | Err e => (Err e, fs1)
  end.

(** The names bound at the top level of [bridgedetect.py]: its imports and
    its [def]s. *)
Definition module_globals : list string :=
  ["cv2"; "np"; "os"; "itertools"; "argparse"; "constants";
   "find_red"; "smooth_regions"; "find_polygons"; "convert_polygon_to_roi";
   "save_rois"; "main"].

(** The builtins that [main] names. *)
Definition builtins : list string := ["list"; "map"; "range"].

(** Loading a global name. *)
Definition load_global (name : string) : result unit :=
  if bool_decide (name ∈ (module_globals ++ builtins)%list) then Ok () else Err NameError.

(** The parsed command line. *)
Record args := { video : string; outfile : string; override : bool; frame : Z }.

Variables Frame Mask : Type.

(** [find_red] and [smooth_regions] with their default arguments: chains
    of OpenCV calls, [None] when one of them raises. *)
Variable find_red : Frame → option Mask.
Variable smooth_regions : Mask → option Mask.

(** What [find_rects], [pair_rects] and [get_roi_from_rect_pair] would
    compute together, were the three names bound. *)
Variable rect_rois : Mask → result (list roi).

(** [video.read()] on the frames left: the flag and frame, and the rest. *)
Definition read (frames : list Frame) : option Frame * list Frame :=
  match frames with
  | [] => (None, [])
  | f :: frames' => (Some f, frames')
  end.

(** Lines 98-100: [n] reads, [arg_parser.error] exits when one fails. *)
Fixpoint skip (n : nat) (frames : list Frame) : result (list Frame) :=
  match n with
  | O => Ok frames
  | S n' =>
      match read frames with
      | (None, _) => Err SystemExit
      | (Some _, frames') => skip n' frames'
      end
  end.

(** Lines 97-104: the mask of the requested frame. *)
Definition frame_mask (a : args) (frames : list Frame) : result Mask :=
  frames' ←! skip (Z.to_nat (frame a - 1)) frames;
  match read frames' with
  | (None, _) => Err SystemExit
  | (Some fr, _) =>
      match find_red fr with
      | None => Err cv2_error
      | Some m =>
          match smooth_regions m with
          | None => Err cv2_error
          | Some mask => Ok mask
          end
      end
  end.

(** Line 105: the names are loaded in evaluation order, the callee before
    its arguments. *)
Definition line_105 (mask : Mask) : result (list roi) :=
  _ ←! load_global "list";
  _ ←! load_global "map";
  _ ←! load_global "get_roi_from_rect_pair";
  _ ←! load_global "pair_rects";
  _ ←! load_global "find_rects";
  rect_rois mask.

(** [main()], after [parse_args], on the frames of the video. *)
Definition main (fs : files) (a : args) (frames : list Frame) : result unit * files :=
  match frame_mask a frames with
  | Err e => (Err e, fs)
  | Ok mask =>
      match line_105 mask with
      | Err e => (Err e, fs)
      | Ok rois => save_rois fs rois (outfile a) (video a) (override a)
      end
  end.

End save.

(** How often the character [c] occurs in [s]. *)
Fixpoint count_char (c : Ascii.ascii) (s : string) : nat :=
  match s with
  | EmptyString => 0%nat
  | String a s' => ((if decide (a = c) then 1 else 0) + count_char c s')%nat
  end.

Definition tab : Ascii.ascii := Ascii.ascii_of_nat 9.

Definition newline : Ascii.ascii := Ascii.ascii_of_nat 10.

(** A character of no decimal numeral and no comma. *)
Definition separator (c : Ascii.ascii) : Prop := c = tab ∨ c = newline.

(** The text of one quadruple. *)
Definition quad (w h x y : Z) : string :=
  pretty w +:+ "," +:+ pretty h +:+ "," +:+ pretty x +:+ "," +:+ pretty y.

(** The text after the path in the record that the specification
    describes, written out item by item: every quadruple with a tab
    before it, then the newline; for no region at all, the tab and the
    newline that the format string of line 67 leaves. *)
Fixpoint tabbed (quads : list string) : string :=
  match quads with
  | [] => NL
  | q :: quads' => TAB +:+ q +:+ tabbed quads'
  end.

Definition quadruples (quads : list string) : string :=
  match quads with
  | [] => TAB +:+ NL
  | _ => tabbed quads
  end.

(** What the file held that the write keeps. *)
Definition kept (fs : files) (outfile : string) (append : bool) : string :=
  match fs !! outfile with
  | Some old => if append then old else EmptyString
  | None => EmptyString
  end.

(** A pixel position held in an int32. *)
Definition pixel (p : point) : Prop := 0 ≤ p.1 < 2 ^ 31 ∧ 0 ≤ p.2 < 2 ^ 31.

End Bridge.

(* ================================================================== *)
(** ** roidetect.contour: the outline of the largest structure *)

Module Contour.

(** Twice [cv2.contourArea(c)] for a contour of integer points: OpenCV
    sums [x_prev * y - x * y_prev] over the closed point sequence, halves
    the sum and takes its absolute value ([oriented] is false). *)
Fixpoint shoelace (prev : point) (c : list point) : Z :=
  match c with
  | [] => 0
  | p :: c' => prev.1 * p.2 - p.1 * prev.2 + shoelace p c'
  end.

Definition contourArea2 (c : list point) : Z :=
  match c with
  | [] => 0
  | _ => Z.abs (shoelace (List.last c (0, 0)) c)
  end.

(** The scan of [max(iterable, key=key)]: the held item is replaced by a
    later one of strictly greater key only. *)
Fixpoint max_scan {A} (key : A → Z) (best : A) (rest : list A) : A :=
  match rest with
  | [] => best
  | x :: rest' =>
      if bool_decide (key best < key x) then max_scan key x rest'
      else max_scan key best rest'
  end.

(** [max(l, key=key)]: [ValueError] for an empty sequence. *)
Definition py_max {A} (key : A → Z) (l : list A) : result A :=
  match l with
  | [] => Err ValueError
  | x :: rest => Ok (max_scan key x rest)
  end.

Section contour.

Variable Mask : Type.

(** [cv2.findContours(mask, cv2.RETR_TREE, cv2.CHAIN_APPROX_NONE)]: the
    contours, each with all of its pixels, in OpenCV's order. *)
Variable findContours : Mask → list (list point).

(** [contour(mask)]: the image [cont] is given by its white pixels.  The
    largest contour goes to [cv2.drawContours] as the list of contours, so
    each of its points is drawn as a contour of one pixel. *)
Definition contour (mask : Mask) : result (list point) :=
  py_max contourArea2 (findContours mask).

End contour.

(** A 2x2 square, then two 3x3 squares. *)
Definition three_contours : list (list point) :=
  [[(0, 0); (0, 2); (2, 2); (2, 0)];
   [(10, 10); (10, 13); (13, 13); (13, 10)];
   [(20, 20); (20, 23); (23, 23); (23, 20)]].

End Contour.

(* ================================================================== *)
(** ** bridgedetect.find_red: the red pixels *)

Module FindRed.

(** A pixel of an 8-bit three-channel image. *)
Abbreviation pixel3 := (Z * Z * Z)%type.

(** [cv2.inRange] at one pixel: 255 when every channel lies between the
    bounds, both included, and 0 otherwise. *)
Definition inRange (px lowerb upperb : pixel3) : Z :=
  if bool_decide (lowerb.1.1 ≤ px.1.1 ≤ upperb.1.1 ∧
                  lowerb.1.2 ≤ px.1.2 ≤ upperb.1.2 ∧
                  lowerb.2 ≤ px.2 ≤ upperb.2)
  then 255 else 0.

(** Addition of uint8 arrays wraps around. *)
Definition add_uint8 (a b : Z) : Z := (a + b) `mod` 256.

(** Lines 21-25 at one pixel of [hsv]. *)
Definition red (hue_diff min_saturation min_value : Z) (px : pixel3) : Z :=
  let mask := inRange px (0, min_saturation, min_value) (hue_diff, 255, 255) in
  let mask := add_uint8 mask
                (inRange px (180 - hue_diff, min_saturation, min_value) (180, 255, 255)) in
  mask `div` 255.

Section find_red.

Variable Image : Type.

(** [cv2.cvtColor(rgb, cv2.COLOR_RGB2HSV)], as the pixels of the result;
    [None] when OpenCV raises. *)
Variable cvtColor : Image → option (list pixel3).

(** [find_red(rgb, hue_diff, min_saturation, min_value)]; the defaults of
    the three tolerances are constants of a module that the repository
    imports. *)
Definition find_red (rgb : Image) (hue_diff min_saturation min_value : Z)
    : result (list Z) :=
  match cvtColor rgb with
  | None => Err cv2_error
  | Some hsv => Ok (red hue_diff min_saturation min_value <$> hsv)
  end.

End find_red.

(** A pixel as OpenCV stores it in an 8-bit HSV image: the hue below 180,
    saturation and value below 256. *)
Definition hsv8 (px : pixel3) : Prop :=
  0 ≤ px.1.1 < 180 ∧ 0 ≤ px.1.2 < 256 ∧ 0 ≤ px.2 < 256.

(** The pixel is in the low hue range, and in the high one. *)
Definition low_red (hue_diff min_saturation min_value : Z) (px : pixel3) : Prop :=
  px.1.1 ≤ hue_diff ∧ min_saturation ≤ px.1.2 ∧ min_value ≤ px.2.
Definition high_red (hue_diff min_saturation min_value : Z) (px : pixel3) : Prop :=
  180 - hue_diff ≤ px.1.1 ∧ min_saturation ≤ px.1.2 ∧ min_value ≤ px.2.

End FindRed.

(* ================================================================== *)
(** ** roidetect.main: from the video to the polygons *)

Module RoiMain.
Import Nodes Centers Vertices Warp Contour.

(** The label table of line 214. *)
Definition Dict : gmap nat Z :=
  list_to_map
    [(0%nat, 42); (1%nat, 122); (2%nat, 121); (3%nat, 41); (4%nat, 12); (5%nat, 40);
     (6%nat, 112); (7%nat, 8); (8%nat, 11); (9%nat, 6); (10%nat, 10); (11%nat, 4);
     (12%nat, 111); (13%nat, 2); (14%nat, 60); (15%nat, 0); (16%nat, 1); (17%nat, 3);
     (18%nat, 20); (19%nat, 7); (20%nat, 5); (21%nat, 211); (22%nat, 31); (23%nat, 21);
     (24%nat, 22); (25%nat, 30); (26%nat, 50); (27%nat, 212); (28%nat, 222);
     (29%nat, 221); (30%nat, 32)].

Section main.

Variables Frame Gray Mask Quad Matrix : Type.

(** [os.path.isfile]. *)
Variable isfile : string → bool.

(** [cv2.VideoCapture(path).read()]: the first frame, [None] (with the
    flag [False]) when none can be read. *)
Variable read_video : string → option Frame.

(** [cv2.cvtColor(frame, cv2.COLOR_BGR2GRAY)] on a frame; [None] when
    OpenCV raises. *)
Variable cvtColor : Frame → option Gray.

Variable detectMarkers : Gray → detection Quad.
Variable centre : Quad → point.
Variable findHomography : list point → list point → option (option Matrix).
Variable warpPerspective : Gray → Matrix → option Gray.

(** [mask(result)], a chain of OpenCV calls: [None] when one raises. *)
Variable mask : Gray → option Mask.

(** [sknw.build_sknw(skeletonize(mask // 255))], line 88-89. *)
Variable build_sknw : Mask → Graph.

Variable findContours : Mask → list (list point).

(** [findNonZero cont centre]: the pixels of the contour image [cont] on
    the circle around [centre]. *)
Variable findNonZero : list point → point → option (list point).
Variable KMeans : list point → result (list point).
Variable convexHull : list point → list point.
Variable ragged_raises : bool.

(** Lines 203-209.  [cv2.cvtColor] raises on the [None] that a failed read
    returns, before the flag is looked at. *)
Definition gray_frame (video : string) : result Gray :=
  if negb (isfile video) then Err SystemExit
  else
    let frame := read_video video in
    let ret := bool_decide (is_Some frame) in
    gray ←! match frame with
            | None => Err cv2_error
            | Some f =>
                match cvtColor f with
                | None => Err cv2_error
                | Some g => Ok g
                end
            end;
    if negb ret then Err SystemExit else Ok gray.

(** Lines 216-230, the two reference tables being loaded. *)
Definition detect (gray : Gray) (coord1 reference : list point)
    : result (Matrix * list (list point)) :=
  Mr ←! warp Gray Quad Matrix centre findHomography warpPerspective gray
          (detectMarkers gray) coord1;
  frame_mask ←! match mask Mr.2 with
                | None => Err cv2_error
                | Some m => Ok m
                end;
  query ←! nodes (build_sknw frame_mask);
  newpoints ←! centers ragged_raises reference query;
  cont ←! contour Mask findContours frame_mask;
  verts ←! vertices (findNonZero cont) KMeans convexHull ragged_raises newpoints Dict;
  Ok (Mr.1, verts).

(** [main()] up to line 230: what follows needs the module [bbox]. *)
Definition main (video : string) (coord1 reference : list point)
    : result (Matrix * list (list point)) :=
  gray ←! gray_frame video;
  detect gray coord1 reference.

End main.

End RoiMain.

(* ================================================================== *)
(** ** roilabel.label_rois: drawing the regions of a file *)

Module RoiLabel.
Import Bridge.

Local Open Scope string_scope.

Definition RuntimeError : exn := Raise "RuntimeError".
Definition FileNotFoundError : exn := Raise "FileNotFoundError".

(** [str.isspace] on the characters below 256: where [str.split()] cuts. *)
Definition isspace (c : Ascii.ascii) : bool :=
  bool_decide (Ascii.nat_of_ascii c
                 ∈ [9; 10; 11; 12; 13; 28; 29; 30; 31; 32; 133; 160]%nat).

(** [s.split()]: the maximal runs of characters that are no white space;
    [cur] is the run being read. *)
Fixpoint split_go (cur s : string) : list string :=
  match s with
  | EmptyString => if decide (cur = EmptyString) then [] else [cur]
  | String c s' =>
      if isspace c then
        if decide (cur = EmptyString) then split_go EmptyString s'
        else cur :: split_go EmptyString s'
      else split_go (cur +:+ String c EmptyString) s'
  end.

Definition split (s : string) : list string := split_go EmptyString s.

(** [s.split(sep)] for a separator of one character: the pieces between
    two separators, at least one piece. *)
Fixpoint split_at_go (sep : Ascii.ascii) (cur s : string) : list string :=
  match s with
  | EmptyString => [cur]
  | String c s' =>
      if decide (c = sep) then cur :: split_at_go sep EmptyString s'
      else split_at_go sep (cur +:+ String c EmptyString) s'
  end.

Definition split_at (sep : Ascii.ascii) (s : string) : list string :=
  split_at_go sep EmptyString s.

Definition comma : Ascii.ascii := Ascii.ascii_of_nat 44.

Section label_rois.

Variables Frame Float : Type.

(** Lines 11-12: the directory of [outfile] is made when it is missing;
    [os.makedirs] may raise.  Directories hold no content of [files]. *)
Variable ensure_dir : string → result unit.

(** [cv2.VideoCapture(video).read()]: the first frame, [None] with the
    flag [False]. *)
Variable read_video : string → option Frame.

(** [float(s)]: [None] when Python raises [ValueError]. *)
Variable float : string → option Float.

(** A box: the upper left corner, the width and height, the angle. *)
Definition box : Type := (Float * Float) * (Float * Float) * Float.

(** [list(map(float, pieces))]. *)
Fixpoint floats (pieces : list string) : result (list Float) :=
  match pieces with
  | [] => Ok []
  | s :: pieces' =>
      match float s with
      | None => Err ValueError
      | Some v =>
          vs ←! floats pieces';
          Ok (v :: vs)
      end
  end.

(** The two lambdas of lines 16-17 on one token of the file: [x[4]] and
    the items before it raise [IndexError] when missing. *)
Definition box_of (token : string) : result box :=
  x ←! floats (split_at comma token);
  match x with
  | x0 :: x1 :: x2 :: x3 :: x4 :: _ => Ok ((x0, x1), (x2, x3), x4)
  | _ => Err Numpy.IndexError
  end.

(** Lines 16-18: [list] draws the tokens through the two maps one by one. *)
Fixpoint boxes (tokens : list string) : result (list box) :=
  match tokens with
  | [] => Ok []
  | t :: tokens' =>
      b ←! box_of t;
      bs ←! boxes tokens';
      Ok (b :: bs)
  end.

(** Lines 19-29: the outlines and numbers drawn on the frame, in floating
    point and OpenCV calls. *)
Variable draw : Frame → list box → result Frame.

(** [cv2.imwrite(outfile, frame)]: the bytes written, [None] when the
    call returns [False]. *)
Variable imwrite : string → Frame → result (option string).

(** [label_rois] up to line 29. *)
Definition annotated (fs : files) (video roifile outfile : string) : result Frame :=
  _ ←! ensure_dir outfile;
  frame ←! match read_video video with
           | None => Err RuntimeError
           | Some f => Ok f
           end;
  text ←! match fs !! roifile with
          | None => Err FileNotFoundError
          | Some t => Ok t
          end;
  bs ←! boxes (split text);
  draw frame bs.

(** [label_rois(video, roifile, outfile)]. *)
Definition label_rois (fs : files) (video roifile outfile : string)
    : result unit * files :=
  match annotated fs video roifile outfile with
  | Err e => (Err e, fs)
  | Ok frame =>
      match imwrite outfile frame with
      | Err e => (Err e, fs)
      | Ok None => (Ok (), fs)
      | Ok (Some image) => (Ok (), <[outfile := image]> fs)
      end
  end.

End label_rois.

(** Every character of [s] satisfies [P]. *)
Fixpoint all_chars (P : Ascii.ascii → bool) (s : string) : bool :=
  match s with
  | EmptyString => true
  | String c s' => P c && all_chars P s'
  end.

(** A character of a decimal numeral: a digit or the minus sign. *)
Definition numeral (c : Ascii.ascii) : bool :=
  bool_decide (Ascii.nat_of_ascii c ∈ [45; 48; 49; 50; 51; 52; 53; 54; 55; 56; 57]%nat).

Definition nonspace (c : Ascii.ascii) : bool := negb (isspace c).

Definition noncomma (c : Ascii.ascii) : bool := bool_decide (c ≠ comma).

(** A [float] that takes the non-empty strings of numeral characters. *)
Definition numerals (s : string) : option string :=
  if all_chars numeral s && bool_decide (s ≠ EmptyString) then Some s else None.

(** A file of two boxes. *)
Definition two_boxes : files :=
  {[ "rois.txt" := "10,20,30,40,0 1,2,3,4,5,6" +:+ NL ]}.

End RoiLabel.

(* ================================================================== *)
(* ================================================================== *)
(** * Properties *)

(** ** General list facts *)

Lemma filter_ext_elem {A} (P Q : A → Prop) `{!∀ x, Decision (P x), !∀ x, Decision (Q x)}
    (l : list A) :
  (∀ x, x ∈ l → P x ↔ Q x) → filter P l = filter Q l.
Proof.
  induction l as [|x l IH]; intros HPQ; [done|].
  rewrite !filter_cons.
  rewrite IH by (intros y Hy; apply HPQ; by right).
  destruct (decide (P x)) as [HP|HP], (decide (Q x)) as [HQ|HQ]; try done.
  - exfalso. apply HQ, HPQ; [by left|done].
  - exfalso. apply HP, HPQ; [by left|done].
Qed.

Lemma filter_fmap_comm {A B} (f : A → B) (P : B → Prop) `{!∀ y, Decision (P y)}
    (l : list A) :
  filter P (f <$> l) = f <$> filter (λ x, P (f x)) l.
Proof.
  induction l as [|x l IH]; [done|].
  rewrite fmap_cons, !filter_cons, IH. by destruct (decide (P (f x))).
Qed.

Lemma filter_all_elem {A} (P : A → Prop) `{!∀ x, Decision (P x)} (l : list A) :
  (∀ x, x ∈ l → P x) → filter P l = l.
Proof.
  induction l as [|x l IH]; intros HP; [done|].
  rewrite filter_cons, decide_True by (apply HP; by left).
  f_equal. apply IH. intros y Hy. apply HP. by right.
Qed.

(* ================================================================== *)
(** ** roidetect.nodes *)

Module NodesProps.
Import Nodes.

Lemma node_get_elem g i a : node_get g i = Some a → (i, a) ∈ g.
Proof.
  induction g as [|[j b] g IH]; simpl; [done|].
  destruct (Nat.eqb_spec j i) as [->|Hne].
  - intros [= ->]. by left.
  - intros H. right. by apply IH.
Qed.

Lemma node_get_NoDup g i a : NoDup g.*1 → (i, a) ∈ g → node_get g i = Some a.
Proof.
  induction g as [|[j b] g IH]; simpl; intros Hnd Hin.
  - by apply elem_of_nil in Hin.
  - apply NoDup_cons in Hnd as [Hj Hnd].
    apply elem_of_cons in Hin as [[= -> ->]|Hin].
    + by rewrite Nat.eqb_refl.
    + destruct (Nat.eqb_spec j i) as [->|Hne]; [|by apply IH].
      exfalso. apply Hj. apply list_elem_of_fmap. by exists (i, a).
Qed.

Lemma kv_remove_node c i c' :
  remove_node c i = Ok c' → kv c' = filter (λ x, x.1 ≠ i) (kv c).
Proof.
  unfold remove_node. destruct (node_get c i); [|done]. intros [= <-].
  unfold kv. rewrite filter_fmap_comm, <-list_fmap_compose. done.
Qed.

Lemma prune_kv graph ids : ∀ c c',
  prune graph ids c = Ok c' →
  kv c' = filter (λ x, x.1 ∈ ids → keep graph x.1) (kv c).
Proof.
  induction ids as [|i ids IH]; simpl; intros c c' Hp.
  - injection Hp as <-. symmetry. apply filter_all_elem.
    intros x _ Hx. by apply elem_of_nil in Hx.
  - unfold neighbors in Hp. destruct (node_get graph i) as [a|] eqn:Ha; [|done].
    simpl in Hp. case_bool_decide as Hdeg.
    + destruct (remove_node c i) as [c1|] eqn:Hrm; [|done]. simpl in Hp.
      rewrite (IH _ _ Hp), (kv_remove_node _ _ _ Hrm), list_filter_filter.
      apply list_filter_iff. intros [j p]. simpl. rewrite elem_of_cons. split.
      * intros [H1 H2] [Hj|Hx]; [done|auto].
      * intros H. split; [auto|]. intros ->.
        destruct H as (b & Hb & ?); [by left|]. unfold degree in *.
        rewrite Ha in Hb. injection Hb as <-. lia.
    + simpl in Hp. rewrite (IH _ _ Hp).
      apply list_filter_iff. intros [j p]. simpl. rewrite elem_of_cons. split.
      * intros H [->|Hx]; [|auto]. exists a. unfold degree. split; [done|lia].
      * intros H Hx. apply H. by right.
Qed.

Lemma prune_ok_keys graph ids : ∀ c c',
  prune graph ids c = Ok c' → ∀ i, i ∈ ids → is_Some (node_get graph i).
Proof.
  induction ids as [|i ids IH]; simpl; intros c c' Hp j Hj.
  - by apply elem_of_nil in Hj.
  - unfold neighbors in Hp. destruct (node_get graph i) as [a|] eqn:Ha; [|done].
    simpl in Hp. apply elem_of_cons in Hj as [->|Hj]; [by rewrite Ha|].
    destruct (if bool_decide _ then _ else _) as [c1|]; [|done].
    simpl in Hp. eauto.
Qed.

(** When the loop has run through [range(len(node_centers))] without an
    exception, the node keys are exactly [0 .. n-1]. *)
Lemma checked_keys graph c' :
  NoDup graph.*1 →
  prune graph (seq 0 (length graph)) graph = Ok c' →
  ∀ na, na ∈ graph → na.1 ∈ seq 0 (length graph).
Proof.
  intros Hnd Hp na Hna.
  assert (seq 0 (length graph) ⊆+ graph.*1) as Hsub.
  { apply NoDup_submseteq; [apply NoDup_seq|]. intros i Hi.
    destruct (prune_ok_keys _ _ _ _ Hp i Hi) as [a Ha].
    apply list_elem_of_fmap. exists (i, a). split; [done|by apply node_get_elem]. }
  apply submseteq_length_Permutation in Hsub.
  - rewrite Hsub. apply list_elem_of_fmap. by exists na.
  - rewrite length_fmap, length_seq. done.
Qed.

Lemma nodes_filter graph out :
  NoDup graph.*1 →
  nodes graph = Ok out →
  out = (λ na, o na.2) <$> filter (λ na, 3 ≤ degree na.2)%nat graph.
Proof.
  intros Hnd. unfold nodes. rewrite length_fmap.
  destruct (prune _ _ _) as [c'|] eqn:Hp; [|done]. simpl. intros [= <-].
  pose proof (prune_kv _ _ _ _ Hp) as Hkv.
  pose proof (checked_keys _ _ Hnd Hp) as Hkeys.
  transitivity (snd <$> kv c').
  { unfold kv. by rewrite <-list_fmap_compose. }
  rewrite Hkv. unfold kv. rewrite filter_fmap_comm, <-list_fmap_compose.
  simpl. f_equal. apply filter_ext_elem. intros [i a] Hin. simpl. split.
  - intros H. destruct H as (b & Hb & ?); [by apply (Hkeys (i, a))|].
    rewrite (node_get_NoDup _ _ _ Hnd Hin) in Hb. by injection Hb as <-.
  - intros H _. exists a. split; [by apply node_get_NoDup|done].
Qed.

Lemma prune_raises graph ids : ∀ c e,
  prune graph ids c = Err e → e = NetworkXError.
Proof.
  induction ids as [|i ids IH]; simpl; intros c e Hp; [done|].
  unfold neighbors in Hp. destruct (node_get graph i) as [a|]; simpl in Hp.
  - case_bool_decide.
    + unfold remove_node in Hp. destruct (node_get c i); simpl in Hp; [eauto|].
      by injection Hp as <-.
    + simpl in Hp. eauto.
  - by injection Hp as <-.
Qed.

(** C2 (as stated, refuted): on the empty skeleton graph of a black mask
    [nodes] does not raise [TopologyError]. *)
Lemma nodes_black_mask_returns :
  nodes [] = Ok [] ∧ nodes [] ≠ Err TopologyError.
Proof. split; [reflexivity|discriminate]. Qed.

(** C2 (amended): on the empty skeleton graph of a black mask [nodes]
    returns the empty coordinate array, and no graph at all makes it raise
    [TopologyError]: the only exception of the pruning loop is networkx's
    own, for a node that is missing. *)
Theorem nodes_black_mask :
  nodes [] = Ok [] ∧
  ∀ graph, nodes graph ≠ Err TopologyError ∧
           ∀ e, nodes graph = Err e → e = NetworkXError.
Proof.
  split; [reflexivity|]. intros graph.
  assert (∀ e, nodes graph = Err e → e = NetworkXError) as H.
  { intros e. unfold nodes.
    destruct (prune _ _ _) as [c|e'] eqn:Hp; simpl; [done|].
    intros [= <-]. by eapply prune_raises. }
  split; [|done]. intros He. by apply H in He.
Qed.

(** C6: every coordinate that [nodes] returns is the coordinate of a node
    with at least 3 neighbours in the skeleton graph, and the result is
    exactly the coordinates of those nodes, in node order: no node of
    degree below 3 is included. *)
Theorem nodes_only_junctions graph out :
  NoDup graph.*1 →
  nodes graph = Ok out →
  out = (λ na, o na.2) <$> filter (λ na, 3 ≤ degree na.2)%nat graph ∧
  ∀ p, p ∈ out → ∃ i a, (i, a) ∈ graph ∧ o a = p ∧ (3 ≤ degree a)%nat.
Proof.
  intros Hnd Hout. pose proof (nodes_filter _ _ Hnd Hout) as ->.
  split; [done|]. intros p Hp.
  apply list_elem_of_fmap in Hp as ([i a] & -> & Hin).
  apply list_elem_of_filter in Hin as [Hdeg Hin]. by exists i, a.
Qed.

Lemma nodes_only_junctions_star :
  [(50, 50)] = (λ na, o na.2) <$> filter (λ na, 3 ≤ degree na.2)%nat star ∧
  ∀ p, p ∈ [(50, 50)] → ∃ i a, (i, a) ∈ star ∧ o a = p ∧ (3 ≤ degree a)%nat.
Proof.
  apply (nodes_only_junctions star [(50, 50)]).
  - apply (bool_decide_unpack (NoDup _)). vm_compute. exact I.
  - vm_compute. reflexivity.
Defined.

End NodesProps.

(* ================================================================== *)
(** ** roidetect.centers *)

Module CentersProps.
Import Numpy Centers.

Lemma wrap64_id z : - 2 ^ 63 ≤ z < 2 ^ 63 → wrap64 z = z.
Proof.
  intros Hz. unfold wrap64, wrap. change (64 - 1) with 63.
  rewrite Z.mod_small; lia.
Qed.

(** On pixel coordinates the int64 arithmetic of line 119 does not wrap. *)
Lemma radicand_small r p : small r → small p → radicand r p = dist2 r p.
Proof.
  unfold small, radicand, dist2. destruct r as [r1 r2], p as [p1 p2]. simpl.
  intros [Hr1 Hr2] [Hp1 Hp2].
  assert (∀ a b, Z.abs a < 2 ^ 30 → Z.abs b < 2 ^ 30 →
                 wrap64 (a - b) = a - b ∧ 0 ≤ (a - b) ^ 2 < 2 ^ 62) as Hsq.
  { intros a b Ha Hb. split; [apply wrap64_id; lia|]. nia. }
  destruct (Hsq r1 p1 Hr1 Hp1) as [-> ?], (Hsq r2 p2 Hr2 Hp2) as [-> ?].
  rewrite !(wrap64_id ((_ - _) ^ 2)) by lia.
  rewrite (wrap64_id (_ + _)) by lia.
  rewrite Z.abs_eq by lia. apply wrap64_id. lia.
Qed.

(** The inner loop returns the first index of the least admissible
    radicand below the initial [min_dist], and keeps [index] when there is
    none. *)
Lemma scan_spec r : ∀ ps j m index,
  match scan r ps j m index with
  | None => index = None ∧ ∀ q, q ∈ ps → ¬ (0 ≤ radicand r q < m)
  | Some k =>
      (index = Some k ∧ ∀ q, q ∈ ps → ¬ (0 ≤ radicand r q < m)) ∨
      (∃ q, ps !! (k - j)%nat = Some q ∧ (j ≤ k)%nat ∧ 0 ≤ radicand r q < m ∧
            ∀ q', q' ∈ ps → 0 ≤ radicand r q' → radicand r q ≤ radicand r q')
  end.
Proof.
  induction ps as [|p ps IH]; intros j m index; cbn [scan].
  - destruct index as [k|].
    + left. split; [done|]. intros q Hq. by apply elem_of_nil in Hq.
    + split; [done|]. intros q Hq. by apply elem_of_nil in Hq.
  - case_bool_decide as Hp.
    + specialize (IH (S j) (radicand r p) (Some j)).
      destruct (scan r ps (S j) (radicand r p) (Some j)) as [k|].
      * right. destruct IH as [[[= <-] Hno]|(q & Hq & Hjk & Hrq & Hmin)].
        -- exists p. rewrite Nat.sub_diag. split; [done|]. split; [lia|].
           split; [done|]. intros q' [->|Hq']%elem_of_cons Hq0; [lia|].
           specialize (Hno q' Hq'). lia.
        -- exists q. replace (k - j)%nat with (S (k - S j)) by lia.
           split; [done|]. split; [lia|]. split; [lia|].
           intros q' [->|Hq']%elem_of_cons Hq0; [lia|]. by apply Hmin.
      * by destruct IH as [[=] _].
    + specialize (IH (S j) m index).
      destruct (scan r ps (S j) m index) as [k|].
      * destruct IH as [[-> Hno]|(q & Hq & Hjk & Hrq & Hmin)].
        -- left. split; [done|]. intros q [->|Hq]%elem_of_cons; [done|]. by apply Hno.
        -- right. exists q. replace (k - j)%nat with (S (k - S j)) by lia.
           split; [done|]. split; [lia|]. split; [done|].
           intros q' [->|Hq']%elem_of_cons Hq0; [lia|]. by apply Hmin.
      * destruct IH as [-> Hno]. split; [done|].
        intros q [->|Hq]%elem_of_cons; [done|]. by apply Hno.
Qed.

(** What the inner loop has passed over is out of range or strictly
    farther than what it ends on. *)
Lemma scan_first r : ∀ ps j m index k,
  scan r ps j m index = Some k →
  index = Some k ∨
  ∃ q, ps !! (k - j)%nat = Some q ∧ (j ≤ k)%nat ∧ radicand r q < m ∧
       ∀ i q', (i < k - j)%nat → ps !! i = Some q' →
               radicand r q' < 0 ∨ radicand r q < radicand r q'.
Proof.
  induction ps as [|p ps IH]; intros j m index k; cbn [scan]; [by left|].
  case_bool_decide as Hp; intros Hs.
  - right. destruct (IH _ _ _ _ Hs) as [[= <-]|(q & Hq & Hjk & Hrq & Hbefore)].
    + exists p. rewrite Nat.sub_diag. split; [done|]. split; [lia|].
      split; [lia|]. intros i q' Hi. lia.
    + exists q. replace (k - j)%nat with (S (k - S j)) by lia.
      split; [done|]. split; [lia|]. split; [lia|].
      intros [|i] q' Hi Hq'; simpl in Hq'.
      * injection Hq' as <-. right. lia.
      * apply (Hbefore i q'); [lia|done].
  - destruct (IH _ _ _ _ Hs) as [->|(q & Hq & Hjk & Hrq & Hbefore)]; [by left|].
    right. exists q. replace (k - j)%nat with (S (k - S j)) by lia.
    split; [done|]. split; [lia|]. split; [done|].
    intros [|i] q' Hi Hq'; simpl in Hq'.
    + injection Hq' as <-. lia.
    + apply (Hbefore i q'); [lia|done].
Qed.

Lemma closest_Some r ps k :
  closest r ps = Some k →
  ∃ q, ps !! k = Some q ∧ 0 ≤ radicand r q < 10000 ^ 2 ∧
       ∀ q', q' ∈ ps → 0 ≤ radicand r q' → radicand r q ≤ radicand r q'.
Proof.
  unfold closest. intros H. pose proof (scan_spec r ps 0 (10000 ^ 2) None) as Hs.
  rewrite H in Hs. destruct Hs as [[[=] _]|(q & Hq & _ & ? & ?)].
  rewrite Nat.sub_0_r in Hq. eauto.
Qed.

Lemma closest_None r ps :
  closest r ps = None ↔ ∀ q, q ∈ ps → ¬ (0 ≤ radicand r q < 10000 ^ 2).
Proof.
  unfold closest. pose proof (scan_spec r ps 0 (10000 ^ 2) None) as Hs. split.
  - intros H. rewrite H in Hs. by destruct Hs.
  - intros Hno. destruct (scan r ps 0 (10000 ^ 2) None) as [k|]; [|done].
    destruct Hs as [[[=] _]|(q & Hq & _ & ? & _)].
    exfalso. apply (Hno q); [|done]. by eapply list_elem_of_lookup_2.
Qed.

(** The loops never raise: a selected index is in range. *)
Lemma gather_pick reference ps :
  gather reference ps = Ok ((λ r, pick r ps) <$> reference).
Proof.
  induction reference as [|r reference IH]; simpl; [done|].
  unfold pick at 1. destruct (closest r ps) as [j|] eqn:Hc; simpl.
  - destruct (closest_Some _ _ _ Hc) as (q & -> & _). simpl.
    rewrite IH. simpl. done.
  - rewrite IH. done.
Qed.

Lemma np_array_uniform {A} b (shape : A → list nat) (l : list A) s :
  Forall (λ x, shape x = s) l → np_array b shape l = Ok l.
Proof.
  intros Hl. destruct l as [|x l]; [done|]. simpl.
  apply Forall_cons in Hl as [Hx Hl].
  rewrite bool_decide_eq_true_2; [done|].
  eapply Forall_impl; [exact Hl|]. simpl. congruence.
Qed.

Lemma dist2_nonneg r p : 0 ≤ dist2 r p.
Proof. unfold dist2. nia. Qed.

(** A reference point with a detected point in reach gets the first
    nearest detected point. *)
Lemma pick_near r ps :
  small r → Forall small ps →
  (∃ p, p ∈ ps ∧ dist2 r p < 10000 ^ 2) →
  ∃ j q, closest r ps = Some j ∧ ps !! j = Some q ∧ pick r ps = Row q ∧
         dist2 r q < 10000 ^ 2 ∧ (∀ p, p ∈ ps → dist2 r q ≤ dist2 r p) ∧
         ∀ i p, (i < j)%nat → ps !! i = Some p → dist2 r q < dist2 r p.
Proof.
  intros Hr Hps (p & Hp & Hnear). rewrite Forall_forall in Hps.
  unfold pick. destruct (closest r ps) as [j|] eqn:Hc.
  - destruct (closest_Some _ _ _ Hc) as (q & Hq & Hrq & Hmin).
    assert (q ∈ ps) as Hqin by (by eapply list_elem_of_lookup_2).
    rewrite radicand_small in Hrq by auto.
    exists j, q. rewrite Hq. repeat (split; [done || lia|]). split.
    + intros p' Hp'. specialize (Hmin p' Hp').
      rewrite !radicand_small in Hmin by auto. apply Hmin, dist2_nonneg.
    + intros i p' Hi Hp'. unfold closest in Hc.
      destruct (scan_first _ _ _ _ _ _ Hc) as [[=]|(q' & Hq' & _ & _ & Hbefore)].
      rewrite Nat.sub_0_r in Hq', Hbefore. rewrite Hq in Hq'. injection Hq' as <-.
      assert (p' ∈ ps) as Hp'in by (by eapply list_elem_of_lookup_2).
      specialize (Hbefore i p' Hi Hp').
      rewrite !radicand_small in Hbefore by auto.
      pose proof (dist2_nonneg r p'). lia.
  - exfalso. rewrite closest_None in Hc. apply (Hc p Hp).
    rewrite radicand_small by auto. pose proof (dist2_nonneg r p). lia.
Qed.

(** A reference point with no detected point in reach gets [ps[None]]. *)
Lemma pick_far r ps :
  small r → Forall small ps →
  (∀ p, p ∈ ps → 10000 ^ 2 ≤ dist2 r p) →
  closest r ps = None ∧ pick r ps = NewAxis ps.
Proof.
  intros Hr Hps Hfar. rewrite Forall_forall in Hps.
  assert (closest r ps = None) as Hc.
  { apply closest_None. intros q Hq. rewrite radicand_small by auto.
    specialize (Hfar q Hq). lia. }
  unfold pick. by rewrite Hc.
Qed.

(** C4 (as stated, refuted): a junction at the origin and one detected
    point at distance exactly 10000; the result has no detected point at
    position 0, whatever numpy does with ragged lists. *)
Lemma centers_out_of_reach :
  ¬ ∃ ragged_raises newpoints,
      centers ragged_raises [(0, 0)] [(10000, 0)] = Ok newpoints ∧
      nearest_matching [(0, 0)] [(10000, 0)] newpoints.
Proof.
  intros (b & np & Hc & _ & Hm). destruct (Hm 0%nat (0, 0) eq_refl) as (q & Hq & _).
  destruct b; vm_compute in Hc; injection Hc as <-; discriminate Hq.
Qed.

(** C4 (amended): for pixel coordinates, when every canonical junction has
    a detected point at distance below 10000, [centers] returns as many
    items as there are canonical junctions, the i-th being a detected point
    at minimum Euclidean distance of the i-th junction, and the first such
    point of the detected list.  Matched points stay in the pool: two
    canonical junctions can get the same detected point although another
    one is left unmatched. *)
Theorem centers_nearest :
  (∀ ragged_raises reference ps,
     Forall small reference → Forall small ps →
     (∀ r, r ∈ reference → ∃ p, p ∈ ps ∧ dist2 r p < 10000 ^ 2) →
     ∃ newpoints, centers ragged_raises reference ps = Ok newpoints ∧
                  nearest_matching reference ps newpoints ∧
                  ∀ i r, reference !! i = Some r →
                    ∃ q, newpoints !! i = Some (Row q) ∧ first_nearest r ps q) ∧
  (∀ ragged_raises,
     closest (0, 0) [(1, 0); (500, 500)] = Some 0%nat ∧
     closest (10, 0) [(1, 0); (500, 500)] = Some 0%nat ∧
     centers ragged_raises [(0, 0); (10, 0)] [(1, 0); (500, 500)]
       = Ok [Row (1, 0); Row (1, 0)]).
Proof.
  split; [|intros []; by vm_compute].
  intros b reference ps Href Hps Hnear.
  exists ((λ r, pick r ps) <$> reference). rewrite Forall_forall in Href.
  unfold centers. rewrite gather_pick. simpl. split.
  - apply (np_array_uniform _ _ _ [2%nat]). apply Forall_fmap, Forall_forall.
    intros r Hr. simpl.
    destruct (pick_near r ps) as (j & q & _ & _ & -> & _); auto.
  - assert (∀ i r, reference !! i = Some r →
              ∃ q, ((λ r, pick r ps) <$> reference) !! i = Some (Row q) ∧
                   first_nearest r ps q) as Hfirst.
    { intros i r Hi.
      assert (r ∈ reference) as Hr by (by eapply list_elem_of_lookup_2).
      destruct (pick_near r ps) as (j & q & _ & Hq & Hpick & _ & Hmin & Hbefore); auto.
      exists q. rewrite list_lookup_fmap, Hi. simpl. rewrite Hpick.
      split; [done|]. by exists j. }
    split; [|done]. split; [by rewrite length_fmap|]. intros i r Hi.
    destruct (Hfirst i r Hi) as (q & Hq & j & Hj & Hmin & _).
    exists q. split; [done|]. split; [by eapply list_elem_of_lookup_2|done].
Qed.

(** Two detected points at the same least distance of the first
    junction: the first of them is taken. *)
Lemma centers_nearest_example :
  ∃ newpoints,
    centers true [(10, 10); (90, 40)] [(13, 10); (10, 13); (88, 41)] = Ok newpoints ∧
    nearest_matching [(10, 10); (90, 40)] [(13, 10); (10, 13); (88, 41)] newpoints ∧
    ∀ i r, [(10, 10); (90, 40)] !! i = Some r →
      ∃ q, newpoints !! i = Some (Row q) ∧
           first_nearest r [(13, 10); (10, 13); (88, 41)] q.
Proof.
  apply (proj1 centers_nearest true).
  - repeat constructor; vm_compute; done.
  - repeat constructor; vm_compute; done.
  - intros r Hr. exists (13, 10). split; [by left|].
    apply elem_of_cons in Hr as [->|Hr]; [by vm_compute|].
    apply elem_of_cons in Hr as [->|Hr]; [by vm_compute|].
    by apply elem_of_nil in Hr.
Defined.

(** C9 (as stated, refuted): every detected point is at distance 10000 or
    more of the only canonical junction, and [centers] returns, also with a
    numpy that refuses ragged lists. *)
Lemma centers_far_returns :
  (∀ p, p ∈ [(10000, 0)] → 10000 ^ 2 ≤ dist2 (0, 0) p) ∧
  centers true [(0, 0)] [(10000, 0)] = Ok [NewAxis [(10000, 0)]] ∧
  ¬ raises (centers true [(0, 0)] [(10000, 0)]).
Proof.
  split; [|split].
  - intros p ->%list_elem_of_singleton. by vm_compute.
  - by vm_compute.
  - intros [e He]. vm_compute in He. discriminate He.
Qed.

(** C9 (amended): for pixel coordinates, [centers] selects only detected
    points at distance strictly below 10000.  When every detected point
    lies at distance 10000 or more of a canonical junction, the index stays
    [None] and position i of the list holds [ps[None]], the whole detected
    array under a new axis, in place of a point: the selection raises
    nothing.  When this is so for every canonical junction, [centers]
    returns that list. *)
Theorem centers_reach ragged_raises reference ps :
  Forall small reference → Forall small ps →
  (∀ r j, r ∈ reference → closest r ps = Some j →
     ∃ p, ps !! j = Some p ∧ dist2 r p < 10000 ^ 2) ∧
  (∀ i r, reference !! i = Some r →
     (∀ p, p ∈ ps → 10000 ^ 2 ≤ dist2 r p) →
     closest r ps = None ∧
     ∃ newpoints, gather reference ps = Ok newpoints ∧
                  newpoints !! i = Some (NewAxis ps)) ∧
  ((∀ r p, r ∈ reference → p ∈ ps → 10000 ^ 2 ≤ dist2 r p) →
     centers ragged_raises reference ps
       = Ok (replicate (length reference) (NewAxis ps))).
Proof.
  intros Href Hps. rewrite Forall_forall in Href. split; [|split].
  - intros r j Hr Hc. destruct (closest_Some _ _ _ Hc) as (q & Hq & Hrq & _).
    exists q. split; [done|]. rewrite Forall_forall in Hps.
    rewrite radicand_small in Hrq; [lia|auto|].
    apply Hps. by eapply list_elem_of_lookup_2.
  - intros i r Hi Hfar.
    assert (r ∈ reference) as Hr by (by eapply list_elem_of_lookup_2).
    destruct (pick_far r ps) as [Hc Hp]; auto. split; [done|].
    eexists. split; [apply gather_pick|].
    by rewrite list_lookup_fmap, Hi, <-Hp.
  - intros Hfar. unfold centers. rewrite gather_pick. simpl.
    assert ((λ r, pick r ps) <$> reference
            = replicate (length reference) (NewAxis ps)) as ->.
    { assert (∀ r, r ∈ reference → pick r ps = NewAxis ps) as H.
      { intros r Hr. destruct (pick_far r ps) as [_ Hp]; auto. }
      clear Hfar Href. induction reference as [|r reference IH]; [done|].
      simpl. rewrite H by (by left). f_equal. apply IH.
      intros r' Hr'. apply H. by right. }
    apply (np_array_uniform _ _ _ (1%nat :: array_shape ps)).
    by apply Forall_replicate.
Qed.

Lemma centers_reach_far_point :
  (∀ r j, r ∈ [(0, 0)] → closest r [(10000, 0)] = Some j →
     ∃ p, [(10000, 0)] !! j = Some p ∧ dist2 r p < 10000 ^ 2) ∧
  (∀ i r, [(0, 0)] !! i = Some r →
     (∀ p, p ∈ [(10000, 0)] → 10000 ^ 2 ≤ dist2 r p) →
     closest r [(10000, 0)] = None ∧
     ∃ newpoints, gather [(0, 0)] [(10000, 0)] = Ok newpoints ∧
                  newpoints !! i = Some (NewAxis [(10000, 0)])) ∧
  ((∀ r p, r ∈ [(0, 0)] → p ∈ [(10000, 0)] → 10000 ^ 2 ≤ dist2 r p) →
     centers true [(0, 0)] [(10000, 0)]
       = Ok (replicate (length [(0, 0)]) (NewAxis [(10000, 0)]))).
Proof.
  apply (centers_reach true [(0, 0)] [(10000, 0)]).
  - repeat constructor; vm_compute; done.
  - repeat constructor; vm_compute; done.
Defined.

End CentersProps.

(* ================================================================== *)
(** ** numpy: roll and argmax *)

Module NumpyProps.
Import Numpy.

Lemma rotate_0 {A} (l : list A) : rotate 0 l = l.
Proof.
  unfold rotate. rewrite Nat.Div0.mod_0_l. simpl. by rewrite app_nil_r.
Qed.

Lemma rotate_rotate_comm {A} (l : list A) a b :
  rotate a (rotate b l) = rotate b (rotate a l).
Proof.
  apply list_eq. intros i. destruct (decide (i < length l)%nat) as [Hi|Hi].
  - rewrite !lookup_rotate_r, !length_rotate
      by (rewrite ?length_rotate; auto using rotate_nat_add_lt with lia).
    f_equal. unfold rotate_nat_add.
    rewrite !Z2Nat.id by (apply Z.mod_pos; lia).
    rewrite !Zplus_mod_idemp_r. f_equal. f_equal. lia.
  - rewrite !lookup_ge_None_2 by (rewrite !length_rotate; lia). done.
Qed.

(** [np.roll(a, -k)] for an index [k] of [a] starts at row [k]. *)
Lemma roll_neg {A} (a : list A) (k : nat) :
  (k < length a)%nat → roll a (- Z.of_nat k) = rotate k a.
Proof.
  intros Hk. unfold roll. rewrite Z.opp_involutive, Z.mod_small by lia.
  by rewrite Nat2Z.id.
Qed.

Lemma length_roll {A} (a : list A) s : length (roll a s) = length a.
Proof. unfold roll. apply length_rotate. Qed.

(** [np.roll(a, s)] moves row [k] to row [(k + s) mod n]. *)
Lemma roll_lookup {A} (a : list A) (s : Z) (k : nat) :
  (k < length a)%nat →
  roll a s !! Z.to_nat ((Z.of_nat k + s) `mod` Z.of_nat (length a)) = a !! k.
Proof.
  intros Hk. unfold roll.
  assert (0 < Z.of_nat (length a)) as Hn by lia.
  pose proof (Z.mod_pos_bound (Z.of_nat k + s) _ Hn).
  pose proof (Z.mod_pos_bound (- s) _ Hn).
  rewrite lookup_rotate_r by lia. f_equal. unfold rotate_nat_add.
  rewrite !Z2Nat.id by lia. rewrite <-Zplus_mod. 
  replace (- s + (Z.of_nat k + s)) with (Z.of_nat k) by lia.
  rewrite Z.mod_small by lia. apply Nat2Z.id.
Qed.

Lemma float_le_trans x y z :
  float_le x y = true → float_le y z = true → float_le x z = true.
Proof.
  destruct x, y, z; simpl; try done.
  rewrite !bool_decide_eq_true. lia.
Qed.

Lemma float_le_refl x : isnan x = false → float_le x x = true.
Proof. destruct x; simpl; [done|]. intros _. by rewrite bool_decide_eq_true. Qed.

(** The scan stops on the first NaN, or else on a maximum of what it has
    seen. *)
Lemma argmax_scan_spec rest : ∀ mp max_ind i,
  isnan mp = false →
  let m := argmax_scan mp max_ind i rest in
  (m = max_ind ∧ Forall (λ y, float_le y mp = true) rest) ∨
  (∃ v, (i ≤ m)%nat ∧ rest !! (m - i)%nat = Some v ∧
        (v = NaN ∨ (float_le mp v = true ∧ Forall (λ y, float_le y v = true) rest))).
Proof.
  induction rest as [|x rest IH]; intros mp max_ind i Hmp; simpl.
  - left. by split.
  - destruct (float_le x mp) eqn:Hle.
    + destruct (IH mp max_ind (S i) Hmp) as [[-> Hall]|(v & Hi & Hv & Hmax)].
      * left. split; [done|]. by constructor.
      * right. exists v. split; [lia|].
        replace (argmax_scan mp max_ind (S i) rest - i)%nat
          with (S (argmax_scan mp max_ind (S i) rest - S i)) by lia.
        split; [done|]. destruct Hmax as [->|[Hmv Hall]]; [by left|right].
        split; [done|]. constructor; [|done]. by eapply float_le_trans.
    + destruct (isnan x) eqn:Hx.
      * right. exists x. rewrite Nat.sub_diag. split; [done|]. split; [done|].
        left. by destruct x.
      * assert (float_le mp x = true) as Hmx.
        { destruct x, mp; simpl in *; try done.
          apply bool_decide_eq_false in Hle. apply bool_decide_eq_true. lia. }
        right. destruct (IH x i (S i) Hx) as [[-> Hall]|(v & Hi & Hv & Hmax)].
        -- exists x. rewrite Nat.sub_diag. split; [done|]. split; [done|].
           right. split; [done|]. constructor; [|done]. by apply float_le_refl.
        -- exists v. split; [lia|].
           replace (argmax_scan x i (S i) rest - i)%nat
             with (S (argmax_scan x i (S i) rest - S i)) by lia.
           split; [done|]. destruct Hmax as [->|[Hxv Hall]]; [by left|right].
           split; [by eapply float_le_trans|]. by constructor.
Qed.

(** The index that [argmax] returns holds a NaN or a maximum. *)
Lemma argmax_spec a m :
  argmax a = Ok m →
  ∃ v, a !! m = Some v ∧ (v = NaN ∨ Forall (λ y, float_le y v = true) a).
Proof.
  destruct a as [|x rest]; simpl; [done|]. intros [= <-].
  destruct (isnan x) eqn:Hx.
  - exists x. split; [done|]. left. by destruct x.
  - destruct (argmax_scan_spec rest x 0%nat 1%nat Hx) as [[-> Hall]|(v & Hi & Hv & Hmax)].
    + exists x. split; [done|]. right. constructor; [|done]. by apply float_le_refl.
    + exists v. split.
      * destruct (argmax_scan x 0 1 rest) as [|m]; [lia|].
        simpl in *. by rewrite Nat.sub_0_r in Hv.
      * destruct Hmax as [->|[Hxv Hall]]; [by left|right]. by constructor.
Qed.

Lemma argmax_scan_max rest : ∀ mp max_ind i,
  Forall (λ y, float_le y mp = true) rest → argmax_scan mp max_ind i rest = max_ind.
Proof.
  induction rest as [|x rest IH]; intros mp max_ind i Hall; simpl; [done|].
  apply Forall_cons in Hall as [-> Hall]. by apply IH.
Qed.

(** A sequence that starts with a NaN or with a maximum has [argmax] 0. *)
Lemma argmax_head v rest :
  v = NaN ∨ Forall (λ y, float_le y v = true) rest → argmax (v :: rest) = Ok 0%nat.
Proof.
  intros [->|Hall]; simpl; [done|]. destruct (isnan v); [done|].
  by rewrite argmax_scan_max.
Qed.

Lemma rotate_rotate {A} (l : list A) a b : rotate a (rotate b l) = rotate (a + b) l.
Proof.
  apply list_eq. intros i. destruct (decide (i < length l)%nat) as [Hi|Hi].
  - rewrite !lookup_rotate_r, !length_rotate
      by (rewrite ?length_rotate; auto using rotate_nat_add_lt with lia).
    f_equal. unfold rotate_nat_add.
    rewrite !Z2Nat.id by (apply Z.mod_pos; lia).
    rewrite Zplus_mod_idemp_r. f_equal. f_equal. lia.
  - rewrite !lookup_ge_None_2 by (rewrite !length_rotate; lia). done.
Qed.

Lemma rotate_Permutation {A} (l : list A) k : rotate k l ≡ₚ l.
Proof.
  unfold rotate. rewrite Permutation_app_comm. by rewrite take_drop.
Qed.

Lemma np_array_Ok {A} b (shape : A → list nat) (l l' : list A) :
  np_array b shape l = Ok l' → l' = l.
Proof.
  destruct l as [|x l]; simpl; [by intros [= <-]|].
  case_bool_decide; [by intros [= <-]|]. destruct b; [done|by intros [= <-]].
Qed.

End NumpyProps.

(* ================================================================== *)
(** ** roidetect.vertices *)

Module VerticesProps.
Import Numpy NumpyProps Centers Hull Vertices.

Lemma length_segdists poly : length (segdists poly) = length poly.
Proof.
  unfold segdists, diff. rewrite length_fmap, length_zip_with, length_rotate.
  apply Nat.min_id.
Qed.

Lemma segdists_lookup poly i :
  segdists poly !! i =
  match rotate 1 poly !! i, poly !! i with
  | Some q, Some p => Some (edge q p)
  | _, _ => None
  end.
Proof.
  unfold segdists, diff. rewrite list_lookup_fmap, lookup_zip_with.
  destruct (rotate 1 poly !! i) as [q|]; simpl; [|done].
  by destruct (poly !! i).
Qed.

(** Rotating the polygon rotates its edge lengths. *)
Lemma segdists_rotate poly k : segdists (rotate k poly) = rotate k (segdists poly).
Proof.
  apply list_eq. intros i. destruct (decide (i < length poly)%nat) as [Hi|Hi].
  - rewrite lookup_rotate_r by (by rewrite length_segdists).
    rewrite !segdists_lookup, rotate_rotate_comm.
    rewrite (lookup_rotate_r (rotate 1 poly)) by (by rewrite length_rotate).
    rewrite (lookup_rotate_r poly k i) by done.
    by rewrite length_segdists, !length_rotate.
  - rewrite !lookup_ge_None_2;
      rewrite ?length_rotate, ?length_segdists, ?length_rotate; [done|lia..].
Qed.

(** After the longest edge has been brought to the front, it is found at
    index 0. *)
Lemma argmax_rotate a m : argmax a = Ok m → argmax (rotate m a) = Ok 0%nat.
Proof.
  intros Hm. destruct (argmax_spec _ _ Hm) as (v & Hv & Hmax).
  assert (m < length a)%nat as Hlt by (by eapply lookup_lt_Some).
  assert (∃ rest, rotate m a = v :: rest) as [rest Hrot].
  { unfold rotate. rewrite Nat.mod_small by done.
    rewrite (drop_S _ _ _ Hv). eauto. }
  rewrite Hrot. apply argmax_head. destruct Hmax as [->|Hall]; [by left|right].
  rewrite Forall_forall in Hall. apply Forall_forall. intros y Hy.
  apply Hall. apply (elem_of_rotate _ m). rewrite Hrot. by right.
Qed.

Lemma normalize_rotate poly rolled :
  normalize poly = Ok rolled →
  ∃ m, argmax (segdists poly) = Ok m ∧ (m < length poly)%nat ∧ rolled = rotate m poly.
Proof.
  unfold normalize. destruct (argmax (segdists poly)) as [m|] eqn:Hm; simpl; [|done].
  intros [= <-]. exists m. destruct (argmax_spec _ _ Hm) as (v & Hv & _).
  apply lookup_lt_Some in Hv. rewrite length_segdists in Hv.
  split; [done|]. split; [done|]. by apply roll_neg.
Qed.

(** C5: the normalization of lines 170-173 (the start vertex of the longest
    edge first) leaves a polygon that it has produced unchanged. *)
Theorem normalize_idempotent poly rolled :
  normalize poly = Ok rolled → normalize rolled = Ok rolled.
Proof.
  intros (m & Hm & Hlt & ->)%normalize_rotate.
  unfold normalize. rewrite segdists_rotate, (argmax_rotate _ _ Hm). simpl.
  unfold roll. simpl. rewrite Z.mod_0_l by (rewrite length_rotate; lia).
  simpl. by rewrite rotate_0.
Qed.

Lemma normalize_idempotent_hexagon :
  normalize [(60, 100); (80, 65); (120, 66); (140, 100); (120, 135); (80, 136)]
    = Ok [(80, 136); (60, 100); (80, 65); (120, 66); (140, 100); (120, 135)] ∧
  normalize [(80, 136); (60, 100); (80, 65); (120, 66); (140, 100); (120, 135)]
    = Ok [(80, 136); (60, 100); (80, 65); (120, 66); (140, 100); (120, 135)].
Proof.
  split; [by vm_compute|].
  apply (normalize_idempotent
           [(60, 100); (80, 65); (120, 66); (140, 100); (120, 135); (80, 136)]).
  by vm_compute.
Defined.

Section loop.

Variable findNonZero : point → option (list point).
Variable KMeans : list point → result (list point).
Variable convexHull : list point → list point.

Lemma polygons_lookup Dict newpoints : ∀ i0 conn,
  polygons findNonZero KMeans convexHull Dict i0 newpoints = Ok conn →
  length conn = length newpoints ∧
  ∀ i verts, conn !! i = Some verts →
    ∃ it, newpoints !! i = Some it ∧
          polygon findNonZero KMeans convexHull Dict (i0 + i) it = Ok verts.
Proof.
  induction newpoints as [|it newpoints IH]; simpl; intros i0 conn.
  - intros [= <-]. split; [done|]. intros i verts Hi. by rewrite lookup_nil in Hi.
  - destruct (polygon findNonZero KMeans convexHull Dict i0 it) as [v|] eqn:Hv; simpl; [|done].
    destruct (polygons findNonZero KMeans convexHull Dict (S i0) newpoints) as [c|] eqn:Hc;
      simpl; [|done].
    intros [= <-]. destruct (IH _ _ Hc) as [Hlen Hall]. split; [simpl; lia|].
    intros [|i] verts Hi; simpl in Hi.
    + injection Hi as <-. exists it. by rewrite Nat.add_0_r.
    + destruct (Hall i verts Hi) as (it' & ? & ?). exists it'.
      by rewrite Nat.add_succ_r.
Qed.

Lemma relabel_rolled label rolled :
  (label ∈ chirality →
     length (relabel label rolled) = length rolled ∧
     ∀ k, (k < length rolled)%nat →
          relabel label rolled !! ((k + 2) `mod` length rolled)%nat = rolled !! k) ∧
  (label ∉ chirality → relabel label rolled = rolled).
Proof.
  unfold relabel. split; intros Hl.
  - rewrite bool_decide_eq_true_2 by done. split; [apply length_roll|].
    intros k Hk. rewrite <-(roll_lookup rolled 2 k Hk). f_equal.
    replace (Z.of_nat k + 2) with (Z.of_nat (k + 2)) by lia.
    by rewrite <-Nat2Z.inj_mod, Nat2Z.id.
  - by rewrite bool_decide_eq_false_2.
Qed.

End loop.

(** C7: in the result of [vertices], the polygon of junction [i] is the
    normalized hull when the label [Dict[i]] is outside the hardcoded set,
    and that polygon rotated by exactly 2 positions (vertex [k] at position
    [(k + 2) mod n]) when the label is in the set. *)
Theorem vertices_chirality findNonZero KMeans convexHull ragged_raises newpoints Dict conn :
  vertices findNonZero KMeans convexHull ragged_raises newpoints Dict = Ok conn →
  length conn = length newpoints ∧
  ∀ i verts, conn !! i = Some verts →
    ∃ q poly rolled label,
      newpoints !! i = Some (Row q) ∧
      hull_of findNonZero KMeans convexHull (q.2, q.1) = Ok poly ∧
      normalize poly = Ok rolled ∧
      Dict !! i = Some label ∧
      (label ∈ chirality →
         length verts = length rolled ∧
         ∀ k, (k < length rolled)%nat →
              verts !! ((k + 2) `mod` length rolled)%nat = rolled !! k) ∧
      (label ∉ chirality → verts = rolled).
Proof.
  unfold vertices.
  destruct (polygons findNonZero KMeans convexHull Dict 0 newpoints) as [c|] eqn:Hc; simpl; [|done].
  intros ->%np_array_Ok. destruct (polygons_lookup _ _ _ _ _ _ _ Hc) as [Hlen Hall].
  split; [done|]. intros i verts Hi. destruct (Hall i verts Hi) as (it & Hit & Hp).
  simpl in Hp. unfold polygon in Hp.
  destruct it as [q|a]; simpl in Hp; [|done].
  destruct (hull_of findNonZero KMeans convexHull (q.2, q.1)) as [poly|] eqn:Hpoly; simpl in Hp; [|done].
  destruct (normalize poly) as [rolled|] eqn:Hn; simpl in Hp; [|done].
  unfold Dict_get in Hp. destruct (Dict !! i) as [label|] eqn:Hl; simpl in Hp; [|done].
  injection Hp as <-. exists q, poly, rolled, label.
  repeat (split; [done|]). apply relabel_rolled.
Qed.

Lemma vertices_chirality_two_junctions :
  length two_polygons = length two_junctions ∧
  ∀ i verts, two_polygons !! i = Some verts →
    ∃ q poly rolled label,
      two_junctions !! i = Some (Row q) ∧
      hull_of (λ _, Some hexagon) (λ index, Ok index) hull_from_right (q.2, q.1) = Ok poly ∧
      normalize poly = Ok rolled ∧
      two_labels !! i = Some label ∧
      (label ∈ chirality →
         length verts = length rolled ∧
         ∀ k, (k < length rolled)%nat →
              verts !! ((k + 2) `mod` length rolled)%nat = rolled !! k) ∧
      (label ∉ chirality → verts = rolled).
Proof.
  apply (vertices_chirality (λ _, Some hexagon) (λ index, Ok index) hull_from_right true
           two_junctions two_labels two_polygons).
  by vm_compute.
Defined.

(** *** The hull step *)

Lemma NoDup_corners pts : NoDup (corners pts).
Proof. unfold corners. apply NoDup_filter, NoDup_remove_dups. Qed.

Lemma elem_of_corners pts p : p ∈ corners pts ↔ p ∈ pts ∧ is_corner pts p = true.
Proof.
  unfold corners. rewrite list_elem_of_filter, elem_of_remove_dups, Is_true_true.
  tauto.
Qed.

Lemma hull_from_right_corners pts : hull_from_right pts ≡ₚ corners pts.
Proof.
  unfold hull_from_right.
  pose proof (merge_sort_Permutation lex_ge (corners pts)) as Hp.
  destruct (merge_sort lex_ge (corners pts)) as [|p0 rest]; [done|].
  rewrite <-Hp. constructor. apply merge_sort_Permutation.
Qed.

Lemma hull_from_right_contract : hull_contract hull_from_right.
Proof.
  intros pts. split; [|split].
  - rewrite hull_from_right_corners. apply NoDup_corners.
  - intros p. rewrite hull_from_right_corners, elem_of_corners. tauto.
  - intros p Hp Hc. rewrite hull_from_right_corners, elem_of_corners. tauto.
Qed.

(** A point at which a linear form is greater than at every other point
    is a corner: it lies on no segment and in no triangle of the others. *)
Lemma on_segment_below (u v : Z) a b p :
  u * a.1 + v * a.2 < u * p.1 + v * p.2 →
  u * b.1 + v * b.2 < u * p.1 + v * p.2 →
  on_segment a b p = false.
Proof.
  destruct a as [a1 a2], b as [b1 b2], p as [p1 p2]. simpl. intros Ha Hb.
  unfold on_segment, cross. simpl. apply bool_decide_eq_false. intros [Hc Hd].
  assert (∃ s1 s2 t1 t2, s1 = p1 - a1 ∧ s2 = p2 - a2 ∧ t1 = p1 - b1 ∧ t2 = p2 - b2)
    as (s1 & s2 & t1 & t2 & Hs1 & Hs2 & Ht1 & Ht2) by (by eexists _, _, _, _).
  assert (0 < u * s1 + v * s2) as Hs by lia.
  assert (0 < u * t1 + v * t2) as Ht by lia.
  assert (s1 * t2 - s2 * t1 = 0) as Hx by (subst; lia).
  assert (s1 * t1 + s2 * t2 ≤ 0) as Hdot by (subst; lia).
  clear Hc Hd Ha Hb Hs1 Hs2 Ht1 Ht2.
  assert ((s1 * s1 + s2 * s2) * (u * t1 + v * t2)
          = (s1 * t1 + s2 * t2) * (u * s1 + v * s2)
            + (s1 * t2 - s2 * t1) * (u * (- s2) + v * s1)) as Hid by ring.
  rewrite Hx, Z.mul_0_l, Z.add_0_r in Hid.
  assert (0 < s1 * s1 + s2 * s2) as Hss.
  { destruct (decide (s1 = 0)) as [->|]; [|nia].
    destruct (decide (s2 = 0)) as [->|]; [lia|nia]. }
  assert (0 < (s1 * s1 + s2 * s2) * (u * t1 + v * t2)) by (apply Z.mul_pos_pos; lia).
  assert ((s1 * t1 + s2 * t2) * (u * s1 + v * s2) ≤ 0)
    by (apply Z.mul_nonpos_nonneg; lia).
  lia.
Qed.

Lemma in_triangle_below (u v : Z) a b c p :
  u * a.1 + v * a.2 < u * p.1 + v * p.2 →
  u * b.1 + v * b.2 < u * p.1 + v * p.2 →
  u * c.1 + v * c.2 < u * p.1 + v * p.2 →
  in_triangle a b c p = false.
Proof.
  destruct a as [a1 a2], b as [b1 b2], c as [c1 c2], p as [p1 p2]. simpl.
  intros Ha Hb Hc.
  unfold in_triangle, cross. simpl. apply bool_decide_eq_false. intros [Hd Hsign].
  assert (∃ A B C D,
            C = (b1 - a1) * (p2 - a2) - (b2 - a2) * (p1 - a1) ∧
            A = (c1 - b1) * (p2 - b2) - (c2 - b2) * (p1 - b1) ∧
            B = (a1 - c1) * (p2 - c2) - (a2 - c2) * (p1 - c1) ∧
            D = (b1 - a1) * (c2 - a2) - (b2 - a2) * (c1 - a1))
    as (A & B & C & D & HC & HA & HB & HD) by (by eexists _, _, _, _).
  rewrite <-HC, <-HA, <-HB in Hsign. rewrite <-HD in Hd.
  assert (A + B + C = D) as Hsum by (subst; ring).
  assert (D * (u * p1 + v * p2)
          = A * (u * a1 + v * a2) + B * (u * b1 + v * b2) + C * (u * c1 + v * c2))
    as Hid by (subst; ring).
  clear HA HB HC HD.
  assert (∃ fp fa fb fc, fp = u * p1 + v * p2 ∧ fa = u * a1 + v * a2 ∧
                         fb = u * b1 + v * b2 ∧ fc = u * c1 + v * c2)
    as (fp & fa & fb & fc & Hfp & Hfa & Hfb & Hfc) by (by eexists _, _, _, _).
  rewrite <-Hfp, <-Hfa, <-Hfb, <-Hfc in *. clear Hfp Hfa Hfb Hfc.
  destruct Hsign as [(HC & HA & HB)|(HC & HA & HB)].
  - assert (A * fa ≤ A * (fp - 1)) by (apply Z.mul_le_mono_nonneg_l; lia).
    assert (B * fb ≤ B * (fp - 1)) by (apply Z.mul_le_mono_nonneg_l; lia).
    assert (C * fc ≤ C * (fp - 1)) by (apply Z.mul_le_mono_nonneg_l; lia).
    assert (0 < D) by lia. nia.
  - assert (A * (fp - 1) ≤ A * fa) by (apply Z.mul_le_mono_nonpos_l; lia).
    assert (B * (fp - 1) ≤ B * fb) by (apply Z.mul_le_mono_nonpos_l; lia).
    assert (C * (fp - 1) ≤ C * fc) by (apply Z.mul_le_mono_nonpos_l; lia).
    assert (D < 0) by lia. nia.
Qed.

Lemma covered_below (u v : Z) others p :
  (∀ q, q ∈ others → u * q.1 + v * q.2 < u * p.1 + v * p.2) →
  covered others p = false.
Proof.
  intros Hbelow. apply not_true_iff_false. unfold covered. intros H.
  apply existsb_exists in H as (a & Ha%list_elem_of_In & H).
  apply existsb_exists in H as (b & Hb%list_elem_of_In & H).
  apply orb_true_iff in H as [H|H].
  - by rewrite (on_segment_below u v a b p) in H by auto.
  - apply existsb_exists in H as (c & Hc%list_elem_of_In & H).
    by rewrite (in_triangle_below u v a b c p) in H by auto.
Qed.

Lemma dist2_sym p q : dist2 p q = dist2 q p.
Proof. unfold dist2. ring. Qed.

(** Points any two of which are [d] apart, for [d] other than 0, are
    pairwise distinct. *)
Lemma separated_apart d pts :
  separated d pts = true →
  (∀ p q, p ∈ pts → q ∈ pts → p ≠ q → d ^ 2 ≤ dist2 p q) ∧
  (0 < d ^ 2 → NoDup pts).
Proof.
  induction pts as [|x pts IH]; simpl.
  - intros _. split; [by intros p q ?%elem_of_nil|constructor].
  - intros [Hx Hrest]%andb_prop. destruct (IH Hrest) as [Hpair Hnd].
    rewrite forallb_forall in Hx.
    assert (∀ q, q ∈ pts → d ^ 2 ≤ dist2 x q) as Hxq.
    { intros q Hq%list_elem_of_In.
      by apply (bool_decide_eq_true_1 (d ^ 2 ≤ dist2 x q)), Hx. }
    split.
    + intros p q [->|Hp]%elem_of_cons [->|Hq]%elem_of_cons Hne; auto; [done|].
      rewrite dist2_sym. auto.
    + intros Hd. constructor; [|auto]. intros Hin. specialize (Hxq x Hin).
      unfold dist2 in Hxq. lia.
Qed.

(** On the circle every point that is far enough from the others is a
    corner of the hull: the tangent at the point leaves them on one
    side. *)
Lemma apart_is_corner c rlo rhi pts p :
  annulus c rlo rhi pts = true → p ∈ pts →
  (∀ q, q ∈ pts → q ≠ p → rhi ^ 2 - rlo ^ 2 < dist2 p q) →
  is_corner pts p = true.
Proof.
  intros Hann Hp Hfar. unfold annulus in Hann. rewrite forallb_forall in Hann.
  assert (∀ q, q ∈ pts → rlo ^ 2 ≤ dist2 c q ≤ rhi ^ 2) as Hc.
  { intros q Hq%list_elem_of_In.
    by apply (bool_decide_eq_true_1 (rlo ^ 2 ≤ dist2 c q ≤ rhi ^ 2)), Hann. }
  unfold is_corner. apply negb_true_iff.
  apply (covered_below (p.1 - c.1) (p.2 - c.2)).
  intros q [Hne Hq]%list_elem_of_filter.
  pose proof (Hc p Hp) as Hcp. pose proof (Hc q Hq) as Hcq.
  pose proof (Hfar q Hq Hne) as Hpq. unfold dist2 in *.
  destruct p as [p1 p2], q as [q1 q2], c as [c1 c2]. simpl in *.
  assert (2 * ((p1 - c1) * q1 + (p2 - c2) * q2
               - ((p1 - c1) * p1 + (p2 - c2) * p2))
          = ((c1 - q1) ^ 2 + (c2 - q2) ^ 2) - ((c1 - p1) ^ 2 + (c2 - p2) ^ 2)
            - ((p1 - q1) ^ 2 + (p2 - q2) ^ 2)) as Hid by ring.
  lia.
Qed.

(** C1: when k-means gives six centres that lie on the circle around the
    junction, at a distance between [rlo] and [rhi] of it, and any two of
    them are [d] apart, for [d] beyond the square root of
    [rhi ^ 2 - rlo ^ 2] (16 pixels for radii from 39 to 42), the polygon
    of lines 163-167 has exactly 6 vertices, the six centres, and so has
    the polygon that the loop body appends, a rotation of it.  Of
    [cv2.convexHull] only its contract is used. *)
Theorem hull_six_vertices findNonZero KMeans convexHull (c : point)
    (index centres : list point) (rlo rhi d : Z) :
  hull_contract convexHull →
  findNonZero c = Some index → KMeans index = Ok centres →
  length centres = 6%nat →
  annulus c rlo rhi centres = true →
  separated d centres = true → rhi ^ 2 - rlo ^ 2 < d ^ 2 →
  ∃ poly,
    hull_of findNonZero KMeans convexHull c = Ok poly ∧
    poly = convexHull centres ∧
    length poly = 6%nat ∧ NoDup poly ∧ poly ≡ₚ centres ∧
    ∀ Dict i q label,
      c = (q.2, q.1) → Dict !! i = Some label →
      ∃ verts k,
        polygon findNonZero KMeans convexHull Dict i (Row q) = Ok verts ∧
        verts = rotate k poly ∧ length verts = 6%nat.
Proof.
  intros Hhull Hnz Hkm Hlen Hann Hsep Hgap.
  destruct (separated_apart d centres Hsep) as [Hpair Hnd].
  assert (0 < d ^ 2) as Hd.
  { destruct centres as [|p0 centres']; [done|].
    unfold annulus in Hann. simpl in Hann. apply andb_prop in Hann as [Hp0 _].
    apply bool_decide_eq_true in Hp0. lia. }
  specialize (Hnd Hd).
  destruct (Hhull centres) as (Hnd' & Hsub & Hcor).
  assert (convexHull centres ≡ₚ centres) as Hperm.
  { apply NoDup_Permutation; [done..|]. intros p. split; [apply Hsub|].
    intros Hp. apply Hcor; [done|].
    apply (apart_is_corner c rlo rhi); [done..|].
    intros q Hq Hne. specialize (Hpair p q Hp Hq (not_eq_sym Hne)). lia. }
  assert (length (convexHull centres) = 6%nat) as Hsix
    by (rewrite <-Hlen; by apply Permutation_length).
  assert (hull_of findNonZero KMeans convexHull c = Ok (convexHull centres)) as Hpoly
    by (unfold hull_of; by rewrite Hnz, Hkm).
  exists (convexHull centres). repeat (split; [done|]).
  intros Dict i q label -> Hlabel. unfold polygon. simpl. rewrite Hpoly. simpl.
  destruct (normalize (convexHull centres)) as [rolled|e] eqn:Hn.
  - destruct (normalize_rotate _ _ Hn) as (m & _ & _ & ->). simpl.
    unfold Dict_get. rewrite Hlabel. simpl. unfold relabel.
    case_bool_decide.
    + unfold roll. rewrite rotate_rotate. eexists _, _. split; [done|].
      split; [done|]. by rewrite length_rotate.
    + eexists _, _. split; [done|]. split; [done|].
      by rewrite length_rotate.
  - exfalso. unfold normalize in Hn.
    pose proof (length_segdists (convexHull centres)) as Hl.
    rewrite Hsix in Hl.
    by destruct (segdists (convexHull centres)).
Qed.

Lemma hull_six_vertices_hexagon :
  ∃ poly,
    hull_of (λ _, Some hexagon) (λ index, Ok index) hull_from_right (100, 100)
      = Ok poly ∧
    poly = hull_from_right hexagon ∧
    length poly = 6%nat ∧ NoDup poly ∧ poly ≡ₚ hexagon ∧
    ∀ Dict i q label,
      (100, 100) = (q.2, q.1) → Dict !! i = Some label →
      ∃ verts k,
        polygon (λ _, Some hexagon) (λ index, Ok index) hull_from_right Dict i (Row q)
          = Ok verts ∧
        verts = rotate k poly ∧ length verts = 6%nat.
Proof.
  apply (hull_six_vertices (λ _, Some hexagon) (λ index, Ok index) hull_from_right
           (100, 100) hexagon hexagon 39 42 16).
  - exact hull_from_right_contract.
  - reflexivity.
  - reflexivity.
  - reflexivity.
  - reflexivity.
  - reflexivity.
  - reflexivity.
Defined.

End VerticesProps.

(* ================================================================== *)
(** ** roidetect.warp *)

Module WarpProps.
Import Warp.

Section registration.

Context {Frame Quad Matrix : Type}.
Variable centre : Quad → point.
Variable findHomography : list point → list point → option (option Matrix).
Variable warpPerspective : Frame → Matrix → option Frame.




End registration.





End WarpProps.

(* ================================================================== *)
(** ** bridgedetect *)

Module BridgeProps.
Import Numpy Bridge.

Lemma append_assoc (a b c : string) : (a +:+ b) +:+ c = a +:+ b +:+ c.
Proof.
  induction a as [|x a IH]; [done|].
  change (String x ((a +:+ b) +:+ c) = String x (a +:+ b +:+ c)). by rewrite IH.
Qed.

(** The record of the specification is the text that the format string
    and ['\t'.join] of lines 67-68 give. *)
Lemma quadruples_join quads : quadruples quads = TAB +:+ join TAB quads +:+ NL.
Proof.
  destruct quads as [|q quads]; [done|]. unfold quadruples. revert q.
  induction quads as [|q' quads IH]; intros q; [done|].
  change (tabbed (q :: q' :: quads)) with (TAB +:+ q +:+ tabbed (q' :: quads)).
  change (join TAB (q :: q' :: quads)) with (q +:+ TAB +:+ join TAB (q' :: quads)).
  by rewrite IH, !append_assoc.
Qed.

Lemma count_char_app c s t :
  count_char c (s +:+ t) = (count_char c s + count_char c t)%nat.
Proof. induction s as [|a s IH]; simpl; [done|]. rewrite IH. lia. Qed.

Lemma pretty_N_char_separator c d : separator c → pretty_N_char d ≠ c.
Proof. intros [-> | ->]; unfold pretty_N_char; by repeat case_match. Qed.

Lemma count_char_pretty_N_go c x : ∀ s,
  separator c → count_char c (pretty_N_go x s) = count_char c s.
Proof.
  induction (N.lt_wf_0 x) as [x _ IH]. intros s Hc.
  destruct (decide (x = 0)%N) as [->|Hx]; [by rewrite pretty_N_go_0|].
  rewrite pretty_N_go_step by lia.
  rewrite IH by (try apply N.div_lt; done || lia). simpl.
  rewrite decide_False; [done|]. by apply pretty_N_char_separator.
Qed.

Lemma count_char_pretty_Z c (z : Z) : separator c → count_char c (pretty z) = 0%nat.
Proof.
  intros Hc. assert (∀ p : positive, count_char c (pretty p) = 0%nat) as Hp.
  { intros p. unfold pretty, pretty_positive, pretty, pretty_N.
    rewrite decide_False by done. by rewrite count_char_pretty_N_go. }
  destruct z as [|p|p]; unfold pretty, pretty_Z.
  - simpl. rewrite decide_False; [done|]. by destruct Hc as [-> | ->].
  - apply Hp.
  - rewrite count_char_app, Hp. simpl.
    rewrite decide_False; [done|]. by destruct Hc as [-> | ->].
Qed.

Lemma count_char_quad c w h x y : separator c → count_char c (quad w h x y) = 0%nat.
Proof.
  intros Hc. unfold quad. rewrite !count_char_app, !count_char_pretty_Z by done.
  simpl. rewrite decide_False; [done|]. by destruct Hc as [-> | ->].
Qed.

Lemma count_char_join_other c quads :
  Forall (λ q, count_char c q = 0%nat) quads → c ≠ tab →
  count_char c (join TAB quads) = 0%nat.
Proof.
  intros Hq Hc. induction Hq as [|q quads Hq _ IH]; [done|].
  destruct quads as [|q' quads]; [done|].
  change (join TAB (q :: q' :: quads)) with (q +:+ TAB +:+ join TAB (q' :: quads)).
  rewrite !count_char_app, Hq, IH. simpl. by rewrite decide_False.
Qed.

Lemma count_char_join_tab quads :
  Forall (λ q, count_char tab q = 0%nat) quads →
  count_char tab (join TAB quads) = (length quads - 1)%nat.
Proof.
  intros Hq. induction Hq as [|q quads Hq _ IH]; [done|].
  destruct quads as [|q' quads]; [simpl; rewrite Hq; lia|].
  change (join TAB (q :: q' :: quads)) with (q +:+ TAB +:+ join TAB (q' :: quads)).
  rewrite !count_char_app, Hq, IH. simpl. lia.
Qed.

(** Every region that is a quadruple is formatted, in the order of its
    four items. *)
Lemma format_rois_quads rois :
  Forall (λ x, length x = 4%nat) rois →
  ∃ quads, format_rois rois = Ok quads ∧
           Forall2 (λ x q, ∃ w h xl yt, x = [w; h; xl; yt] ∧ q = quad w h xl yt)
                   rois quads.
Proof.
  induction 1 as [|x rois Hx _ (quads & Hq & Hall)]; [by exists []|].
  destruct x as [|w [|h [|xl [|yt [|]]]]]; try done.
  exists (quad w h xl yt :: quads). simpl. rewrite Hq. simpl. split; [done|].
  constructor; [|done]. by exists w, h, xl, yt.
Qed.

Lemma save_rois_Ok abspath fs rois outfile imagename append text :
  record abspath rois imagename = Ok text →
  save_rois abspath fs rois outfile imagename append
    = (Ok (), <[outfile := kept fs outfile append +:+ text]> fs).
Proof.
  intros Ht. unfold save_rois, write, open_file, kept. rewrite Ht.
  destruct (fs !! outfile) as [old|] eqn:Hold.
  - destruct append.
    + by rewrite Hold.
    + by rewrite lookup_insert_eq, insert_insert_eq.
  - by rewrite lookup_insert_eq, insert_insert_eq.
Qed.

Lemma list_min_spec a l :
  Forall (λ b, list_min a l ≤ b) (a :: l) ∧ list_min a l ∈ a :: l.
Proof.
  unfold list_min. induction l as [|b l [IH1 IH2]]; simpl.
  - split; [by repeat constructor|by left].
  - apply Forall_cons in IH1 as [Ha Hl]. split.
    + repeat constructor; [lia..|]. eapply Forall_impl; [exact Hl|]. simpl. lia.
    + destruct (Z.min_spec b (foldr Z.min a l)) as [[_ ->]|[_ ->]].
      * right. by left.
      * apply elem_of_cons in IH2 as [->|?]; [by left|]. right. by right.
Qed.

Lemma list_max_spec a l :
  Forall (λ b, b ≤ list_max a l) (a :: l) ∧ list_max a l ∈ a :: l.
Proof.
  unfold list_max. induction l as [|b l [IH1 IH2]]; simpl.
  - split; [by repeat constructor|by left].
  - apply Forall_cons in IH1 as [Ha Hl]. split.
    + repeat constructor; [lia..|]. eapply Forall_impl; [exact Hl|]. simpl. lia.
    + destruct (Z.max_spec b (foldr Z.max a l)) as [[_ ->]|[_ ->]].
      * apply elem_of_cons in IH2 as [->|?]; [by left|]. right. by right.
      * right. by left.
Qed.

Lemma wrap32_id z : - 2 ^ 31 ≤ z < 2 ^ 31 → wrap32 z = z.
Proof.
  intros Hz. unfold wrap32, wrap. change (32 - 1) with 31.
  rewrite Z.mod_small; lia.
Qed.

(** The region of a polygon is its bounding box: width, height, left x,
    top y. *)
Lemma convert_polygon_to_roi_box poly :
  poly ≠ [] → Forall pixel poly →
  ∃ w h x y, convert_polygon_to_roi poly = Ok [w; h; x; y] ∧
    Forall (λ p, x ≤ p.1 ≤ x + w ∧ y ≤ p.2 ≤ y + h) poly ∧
    x ∈ poly.*1 ∧ x + w ∈ poly.*1 ∧ y ∈ poly.*2 ∧ y + h ∈ poly.*2.
Proof.
  intros Hne Hpix. destruct poly as [|p poly]; [done|]. simpl.
  destruct (list_min_spec p.1 poly.*1) as [Hx1 Hx2].
  destruct (list_max_spec p.1 poly.*1) as [HX1 HX2].
  destruct (list_min_spec p.2 poly.*2) as [Hy1 Hy2].
  destruct (list_max_spec p.2 poly.*2) as [HY1 HY2].
  set (x := list_min p.1 poly.*1) in *. set (X := list_max p.1 poly.*1) in *.
  set (y := list_min p.2 poly.*2) in *. set (Y := list_max p.2 poly.*2) in *.
  change (p.1 :: poly.*1) with ((p :: poly).*1) in *.
  change (p.2 :: poly.*2) with ((p :: poly).*2) in *.
  rewrite Forall_fmap in Hx1, HX1, Hy1, HY1.
  assert (∀ c, c ∈ (p :: poly).*1 → 0 ≤ c < 2 ^ 31) as Hr1.
  { intros c ([c1 c2] & -> & Hc)%list_elem_of_fmap.
    rewrite Forall_forall in Hpix. by destruct (Hpix _ Hc). }
  assert (∀ c, c ∈ (p :: poly).*2 → 0 ≤ c < 2 ^ 31) as Hr2.
  { intros c ([c1 c2] & -> & Hc)%list_elem_of_fmap.
    rewrite Forall_forall in Hpix. by destruct (Hpix _ Hc). }
  pose proof (Hr1 x Hx2). pose proof (Hr1 X HX2).
  pose proof (Hr2 y Hy2). pose proof (Hr2 Y HY2).
  exists (X - x), (Y - y), x, y. rewrite !wrap32_id by lia. split; [done|].
  replace (x + (X - x)) with X by lia. replace (y + (Y - y)) with Y by lia.
  split; [|done]. rewrite Forall_forall in Hx1, HX1, Hy1, HY1.
  apply Forall_forall. intros q Hq.
  specialize (Hx1 q Hq). specialize (HX1 q Hq).
  specialize (Hy1 q Hq). specialize (HY1 q Hq). simpl in *. lia.
Qed.

(** C8: the region of a polygon is the quadruple width, height, left x,
    top y of its bounding box, and for every list of quadruples and image
    name [save_rois] adds to the file one line: the absolute path, then
    for every region, in their order, a tab and its quadruple as [w,h,x,y]
    in decimal, then a newline, the only one after the path. *)
Theorem save_rois_record :
  (∀ poly, poly ≠ [] → Forall pixel poly →
     ∃ w h x y, convert_polygon_to_roi poly = Ok [w; h; x; y] ∧
       Forall (λ p, x ≤ p.1 ≤ x + w ∧ y ≤ p.2 ≤ y + h) poly ∧
       x ∈ poly.*1 ∧ x + w ∈ poly.*1 ∧ y ∈ poly.*2 ∧ y + h ∈ poly.*2) ∧
  (∀ abspath fs rois outfile imagename append,
     Forall (λ x, length x = 4%nat) rois →
     ∃ quads,
       Forall2 (λ x q, ∃ w h xl yt, x = [w; h; xl; yt] ∧ q = quad w h xl yt)
               rois quads ∧
       save_rois abspath fs rois outfile imagename append
         = (Ok (), <[outfile := kept fs outfile append +:+
                      (abspath imagename +:+ quadruples quads)]> fs) ∧
       count_char newline (quadruples quads) = 1%nat ∧
       count_char tab (quadruples quads) = (1 `max` length rois)%nat).
Proof.
  split; [exact convert_polygon_to_roi_box|].
  intros abspath fs rois outfile imagename append Hrois.
  destruct (format_rois_quads rois Hrois) as (quads & Hq & Hall).
  exists quads. split; [done|].
  assert (∀ c, separator c → Forall (λ q, count_char c q = 0%nat) quads) as Hsep.
  { intros c Hc. clear Hq. induction Hall as [|x q rois quads Hx _ IH]; [done|].
    constructor; [|apply IH; by inversion Hrois].
    destruct Hx as (w & h & xl & yt & _ & ->). by apply count_char_quad. }
  rewrite quadruples_join. split; [|split].
  - apply save_rois_Ok. unfold record. by rewrite Hq.
  - rewrite !count_char_app, count_char_join_other; [done|..|done].
    apply Hsep. by right.
  - rewrite !count_char_app, count_char_join_tab by (apply Hsep; by left).
    rewrite <-(Forall2_length _ _ _ Hall). simpl. lia.
Qed.

(** Two regions: the line in full. *)
Lemma save_rois_record_two_rois :
  save_rois (λ name, "/data/" +:+ name) ∅ [[30; 20; 5; 7]; [4; 4; 100; 50]]
            "rois.txt" "a.avi" true
  = (Ok (), {[ "rois.txt" :=
                 "/data/a.avi" +:+ String tab
                   ("30,20,5,7" +:+ String tab
                      ("4,4,100,50" +:+ String newline EmptyString)) ]}).
Proof.
  destruct (proj2 save_rois_record (λ name, "/data/" +:+ name) ∅
              [[30; 20; 5; 7]; [4; 4; 100; 50]] "rois.txt" "a.avi" true)
    as (quads & Hall & -> & _); [repeat constructor|].
  apply Forall2_cons_inv_l in Hall
    as (q1 & quads1 & (w1 & h1 & x1 & y1 & [= <- <- <- <-] & ->) & Hall & ->).
  apply Forall2_cons_inv_l in Hall
    as (q2 & quads2 & (w2 & h2 & x2 & y2 & [= <- <- <- <-] & ->) & Hall & ->).
  apply Forall2_nil_inv_l in Hall as ->.
  reflexivity.
Defined.

(** None of the three functions that line 105 calls is bound in the
    module. *)
Lemma unbound_names :
  load_global "get_roi_from_rect_pair" = Err NameError ∧
  load_global "pair_rects" = Err NameError ∧
  load_global "find_rects" = Err NameError.
Proof. by vm_compute. Qed.

(** C10: [main] writes no file and never returns normally, whatever the
    command line, the video and the functions behind the three unbound
    names: a run that gets as far as the mask raises [NameError] at line
    105, the others end before it. *)
Theorem main_never_writes (abspath : string → string) (Frame Mask : Type)
    (find_red : Frame → option Mask) (smooth_regions : Mask → option Mask)
    (rect_rois : Mask → result (list roi))
    (fs : files) (a : args) (frames : list Frame) :
  (load_global "get_roi_from_rect_pair" = Err NameError ∧
   load_global "pair_rects" = Err NameError ∧
   load_global "find_rects" = Err NameError) ∧
  (main abspath Frame Mask find_red smooth_regions rect_rois fs a frames).2 = fs ∧
  raises (main abspath Frame Mask find_red smooth_regions rect_rois fs a frames).1 ∧
  (∀ mask, frame_mask Frame Mask find_red smooth_regions a frames = Ok mask →
     (main abspath Frame Mask find_red smooth_regions rect_rois fs a frames).1
       = Err NameError).
Proof.
  split; [exact unbound_names|]. unfold main.
  destruct (frame_mask Frame Mask find_red smooth_regions a frames) as [mask|e].
  - assert (line_105 Mask rect_rois mask = Err NameError) as -> by done.
    simpl. split; [done|]. split; [by exists NameError|done].
  - split; [done|]. split; [by exists e|done].
Qed.

(** A video of two frames, of which the first is asked for. *)
Lemma main_never_writes_first_frame :
  (main (λ name, name) nat nat Some Some (λ _, Ok []) ∅
        {| video := "a.avi"; outfile := "rois.txt"; override := true; frame := 1 |}
        [7%nat; 8%nat]).1 = Err NameError.
Proof.
  apply (proj2 (proj2 (proj2 (main_never_writes (λ name, name) nat nat Some Some
           (λ _, Ok []) ∅
           {| video := "a.avi"; outfile := "rois.txt"; override := true; frame := 1 |}
           [7%nat; 8%nat]))) 7%nat).
  reflexivity.
Defined.

End BridgeProps.

(* ================================================================== *)
(** ** roidetect.nodes: when the loop runs through *)

Module NodesTotal.
Import Nodes NodesProps.

Lemma node_get_keys g i : is_Some (node_get g i) ↔ i ∈ g.*1.
Proof.
  split.
  - intros [a Ha]. apply list_elem_of_fmap. exists (i, a).
    split; [done|by apply node_get_elem].
  - induction g as [|[j b] g IH]; simpl; intros Hi.
    + by apply elem_of_nil in Hi.
    + destruct (Nat.eqb_spec j i) as [->|Hne]; [done|].
      apply elem_of_cons in Hi as [->|Hi]; [done|by apply IH].
Qed.

Lemma remove_node_keys c i c' :
  remove_node c i = Ok c' → c'.*1 = filter (λ j, j ≠ i) c.*1.
Proof.
  unfold remove_node. destruct (node_get c i); [|done]. intros [= <-].
  rewrite (filter_fmap_comm fst (λ j, j ≠ i) c), <-list_fmap_compose. done.
Qed.

(** The loop runs through when every index is a node of the graph and of
    the copy, each index once. *)
Lemma prune_total graph ids : ∀ c,
  NoDup ids →
  (∀ i, i ∈ ids → i ∈ graph.*1) → (∀ i, i ∈ ids → i ∈ c.*1) →
  ∃ c', prune graph ids c = Ok c'.
Proof.
  induction ids as [|i ids IH]; intros c Hnd Hg Hc; simpl; [by eexists|].
  apply NoDup_cons in Hnd as [Hi Hnd].
  unfold neighbors.
  destruct (proj2 (node_get_keys graph i)) as [a ->]; [apply Hg; by left|]. simpl.
  case_bool_decide; simpl.
  - destruct (proj2 (node_get_keys c i)) as [b Hb]; [apply Hc; by left|].
    destruct (remove_node c i) as [c1|] eqn:Hrm;
      [|unfold remove_node in Hrm; by rewrite Hb in Hrm].
    simpl. apply IH; [done|intros j Hj; apply Hg; by right|].
    intros j Hj. rewrite (remove_node_keys _ _ _ Hrm).
    apply list_elem_of_filter. split; [by intros ->|]. apply Hc. by right.
  - apply IH; [done|intros j Hj; apply Hg; by right|intros j Hj; apply Hc; by right].
Qed.

(** [nodes] returns exactly for the graphs whose node keys are
    [0 .. n-1], in any order: any other key set makes [graph.neighbors]
    raise [NetworkXError] inside the loop over [range(len(node_centers))]. *)
Theorem nodes_returns_iff graph :
  NoDup graph.*1 →
  ((∃ out, nodes graph = Ok out) ↔ graph.*1 ≡ₚ seq 0 (length graph)) ∧
  (graph.*1 ≢ₚ seq 0 (length graph) → nodes graph = Err NetworkXError).
Proof.
  intros Hnd.
  assert ((∃ out, nodes graph = Ok out) ↔ graph.*1 ≡ₚ seq 0 (length graph)) as Hiff.
  { unfold nodes. rewrite length_fmap. split.
    - intros [out Hout].
      destruct (prune graph (seq 0 (length graph)) graph) as [c'|] eqn:Hp; [|done].
      apply NoDup_Permutation; [done|apply NoDup_seq|]. intros i. split.
      + intros ([j a] & -> & Hin)%list_elem_of_fmap.
        apply (checked_keys _ _ Hnd Hp (j, a) Hin).
      + intros Hi. apply node_get_keys. by eapply prune_ok_keys.
    - intros Hperm.
      destruct (prune_total graph (seq 0 (length graph)) graph) as [c' ->];
        [apply NoDup_seq|intros i Hi; by rewrite Hperm..|].
      simpl. by eexists. }
  split; [done|]. intros Hnot.
  destruct (nodes graph) as [out|e] eqn:Hn.
  - exfalso. apply Hnot, Hiff. by exists out.
  - f_equal. unfold nodes in Hn.
    destruct (prune _ _ _) as [c|e'] eqn:Hp; simpl in Hn; [done|].
    injection Hn as <-. by eapply prune_raises.
Qed.

Lemma nodes_returns_iff_star :
  ((∃ out, nodes star = Ok out) ↔ star.*1 ≡ₚ seq 0 (length star)) ∧
  (star.*1 ≢ₚ seq 0 (length star) → nodes star = Err NetworkXError).
Proof.
  apply (nodes_returns_iff star).
  apply (bool_decide_unpack (NoDup _)). vm_compute. exact I.
Defined.

End NodesTotal.

(* ================================================================== *)
(** ** roidetect.centers: ties, ragged results, and what vertices gets *)

Module CentersMore.
Import Numpy NumpyProps Centers CentersProps Vertices.

(** Among detected points at the same least distance, [centers] takes the
    one of least index: every earlier point is strictly farther than the
    selected one, every later one at least as far. *)
Theorem closest_first_nearest r ps j :
  small r → Forall small ps →
  closest r ps = Some j →
  ∃ q, ps !! j = Some q ∧
       (∀ p, p ∈ ps → dist2 r q ≤ dist2 r p) ∧
       (∀ i p, (i < j)%nat → ps !! i = Some p → dist2 r q < dist2 r p).
Proof.
  intros Hr Hps Hc. rewrite Forall_forall in Hps.
  assert (∀ i p, ps !! i = Some p → radicand r p = dist2 r p) as Hrad.
  { intros i p Hp. apply radicand_small; [done|].
    apply Hps. by eapply list_elem_of_lookup_2. }
  destruct (closest_Some _ _ _ Hc) as (q & Hq & Hrq & Hmin).
  exists q. split; [done|]. split.
  - intros p Hp. specialize (Hmin p Hp).
    rewrite (Hrad j q Hq), (radicand_small r p Hr (Hps p Hp)) in Hmin.
    apply Hmin, dist2_nonneg.
  - intros i p Hi Hp. unfold closest in Hc.
    destruct (scan_first _ _ _ _ _ _ Hc) as [[=]|(q' & Hq' & _ & _ & Hbefore)].
    rewrite Nat.sub_0_r in Hq', Hbefore. rewrite Hq in Hq'. injection Hq' as <-.
    destruct (Hbefore i p Hi Hp) as [Hneg|Hlt].
    + rewrite (Hrad i p Hp) in Hneg. pose proof (dist2_nonneg r p). lia.
    + by rewrite (Hrad i p Hp), (Hrad j q Hq) in Hlt.
Qed.

Lemma closest_first_nearest_tie :
  ∃ q, [(20, 10); (13, 10); (10, 13)] !! 1%nat = Some q ∧
       (∀ p, p ∈ [(20, 10); (13, 10); (10, 13)] → dist2 (10, 10) q ≤ dist2 (10, 10) p) ∧
       (∀ i p, (i < 1)%nat → [(20, 10); (13, 10); (10, 13)] !! i = Some p →
               dist2 (10, 10) q < dist2 (10, 10) p).
Proof.
  apply (closest_first_nearest (10, 10) [(20, 10); (13, 10); (10, 13)] 1).
  - by vm_compute.
  - repeat constructor; by vm_compute.
  - by vm_compute.
Defined.

Lemma pick_shape r ps :
  (closest r ps = None ∧ pick r ps = NewAxis ps) ∨
  (∃ j q, closest r ps = Some j ∧ ps !! j = Some q ∧ pick r ps = Row q).
Proof.
  unfold pick. destruct (closest r ps) as [j|] eqn:Hc; [right|by left].
  destruct (closest_Some _ _ _ Hc) as (q & Hq & _). exists j, q. by rewrite Hq.
Qed.

(** With a numpy that refuses ragged lists (1.24 on), [centers] raises
    [ValueError] exactly when some canonical junctions have a detected
    point in reach and others have none; with an older numpy it never
    raises.  Whenever it returns, the result has one item per canonical
    junction. *)
Theorem centers_ragged reference ps :
  (centers true reference ps = Err ValueError ↔
     ∃ r r', r ∈ reference ∧ r' ∈ reference ∧
             closest r ps = None ∧ closest r' ps ≠ None) ∧
  (∃ newpoints, centers false reference ps = Ok newpoints) ∧
  (∀ ragged_raises newpoints,
     centers ragged_raises reference ps = Ok newpoints →
     length newpoints = length reference).
Proof.
  unfold centers. rewrite gather_pick. simpl.
  set (l := (λ r, pick r ps) <$> reference).
  assert (∀ b np, np_array b shape l = Ok np → length np = length reference) as Hlen.
  { intros b np ->%np_array_Ok. unfold l. by rewrite length_fmap. }
  split; [|split; [|done]].
  - split.
    + intros Herr. unfold l in Herr.
      destruct reference as [|r0 reference]; [done|]. simpl in Herr.
      case_bool_decide as Hall; [done|]. clear Herr.
      apply not_Forall_Exists in Hall; [|apply _].
      apply Exists_exists in Hall as (it & Hit & Hne).
      apply list_elem_of_fmap in Hit as (r1 & -> & Hr1).
      destruct (pick_shape r0 ps) as [[Hc0 Hp0]|(j0 & q0 & Hc0 & _ & Hp0)],
               (pick_shape r1 ps) as [[Hc1 Hp1]|(j1 & q1 & Hc1 & _ & Hp1)];
        rewrite Hp0, Hp1 in Hne; simpl in Hne; try done.
      * exists r0, r1. rewrite Hc1. repeat split; [by left|by right|done|done].
      * exists r1, r0. rewrite Hc0. repeat split; [by right|by left|done|done].
    + intros (r & r' & Hr & Hr' & Hc & Hc'). unfold l.
      destruct reference as [|r0 reference]; [by apply elem_of_nil in Hr|].
      simpl. rewrite bool_decide_eq_false_2; [done|]. intros Hall.
      assert (∀ x, x ∈ r0 :: reference → shape (pick x ps) = shape (pick r0 ps)) as Hsame.
      { intros x [->|Hx]%elem_of_cons; [done|].
        rewrite Forall_fmap, Forall_forall in Hall. by apply Hall. }
      pose proof (Hsame r Hr) as H1. pose proof (Hsame r' Hr') as H2.
      destruct (pick_shape r ps) as [[_ Hp]|(j & q & Hcj & _)]; [|congruence].
      destruct (pick_shape r' ps) as [[Hcn _]|(j & q & _ & _ & Hp')]; [done|].
      rewrite Hp in H1. rewrite Hp' in H2. rewrite <-H1 in H2. done.
  - destruct l as [|x l']; simpl; [by eexists|].
    case_bool_decide; by eexists.
Qed.

Lemma centers_ragged_one_in_reach :
  centers true [(0, 0); (20000, 0)] [(1, 1)] = Err ValueError.
Proof.
  apply (proj2 (proj1 (centers_ragged [(0, 0); (20000, 0)] [(1, 1)]))).
  exists (20000, 0), (0, 0).
  split; [right; by left|]. split; [by left|]. split; by vm_compute.
Defined.

(** When every detected point is 10000 or more away from every canonical
    junction (an empty detection included), [centers] returns and
    [vertices] then raises [IndexError] at the first junction: it indexes
    [newpoints[i, 1]] where row [i] is [ps[None]]. *)
Theorem far_points_IndexError ragged_raises reference ps :
  Forall small reference → Forall small ps → reference ≠ [] →
  (∀ r p, r ∈ reference → p ∈ ps → 10000 ^ 2 ≤ dist2 r p) →
  ∃ newpoints,
    centers ragged_raises reference ps = Ok newpoints ∧
    ∀ findNonZero KMeans convexHull ragged_raises' Dict,
      vertices findNonZero KMeans convexHull ragged_raises' newpoints Dict = Err IndexError.
Proof.
  intros Href Hps Hne Hfar. unfold centers. rewrite gather_pick. simpl.
  assert ((λ r, pick r ps) <$> reference
          = replicate (length reference) (NewAxis ps)) as ->.
  { rewrite Forall_forall in Href.
    assert (∀ r, r ∈ reference → pick r ps = NewAxis ps) as H.
    { intros r Hr. destruct (pick_far r ps) as [_ Hp]; auto. }
    clear Hfar Href Hne. induction reference as [|r reference IH]; [done|].
    simpl. rewrite H by (by left). f_equal. apply IH.
    intros r' Hr'. apply H. by right. }
  eexists. split.
  - apply (np_array_uniform _ _ _ (1%nat :: array_shape ps)).
    by apply Forall_replicate.
  - intros fNZ KM hull b Dict. destruct reference as [|r reference]; [done|]. done.
Qed.

Lemma far_points_IndexError_black_mask :
  ∃ newpoints,
    centers true [(40, 40); (90, 40)] [] = Ok newpoints ∧
    ∀ findNonZero KMeans convexHull ragged_raises' Dict,
      vertices findNonZero KMeans convexHull ragged_raises' newpoints Dict = Err IndexError.
Proof.
  apply (far_points_IndexError true [(40, 40); (90, 40)] []).
  - repeat constructor; by vm_compute.
  - constructor.
  - done.
  - intros r p _ Hp. by apply elem_of_nil in Hp.
Defined.

End CentersMore.

(* ================================================================== *)
(** ** roidetect.vertices: what the orientation steps keep *)

Module VerticesMore.
Import Numpy NumpyProps Centers Hull Vertices VerticesProps.

Lemma edge_exact q p : coord15 q → coord15 p → edge q p = Sqrt (dist2 q p).
Proof.
  unfold coord15, edge, dist2, np_sqrt. intros [Hq1 Hq2] [Hp1 Hp2].
  assert (∀ a b, 0 ≤ a < 2 ^ 15 → 0 ≤ b < 2 ^ 15 →
                 wrap32 (a - b) = a - b ∧ 0 ≤ (a - b) ^ 2 < 2 ^ 30) as Hsq.
  { intros a b Ha Hb. split; [|nia].
    unfold wrap32, wrap. change (32 - 1) with 31. rewrite Z.mod_small; lia. }
  destruct (Hsq _ _ Hq1 Hp1) as [-> ?], (Hsq _ _ Hq2 Hp2) as [-> ?].
  assert (∀ z, 0 ≤ z < 2 ^ 30 → wrap32 z = z) as Hid.
  { intros z Hz. unfold wrap32, wrap. change (32 - 1) with 31.
    rewrite Z.mod_small; lia. }
  rewrite !Hid by done. rewrite bool_decide_eq_false_2; [done|lia].
Qed.

(** On pixel vertices [normalize] fails for the empty polygon only; its
    result is the polygon rotated to start at some vertex [m], and no edge
    of the result is longer than its first edge, from vertex 0 to
    vertex 1. *)
Theorem normalize_longest_first poly :
  Forall coord15 poly →
  (poly = [] → normalize poly = Err ValueError) ∧
  (poly ≠ [] →
   ∃ rolled m,
     normalize poly = Ok rolled ∧ (m < length poly)%nat ∧ rolled = rotate m poly ∧
     ∀ p0 q0 k p q,
       rolled !! 0%nat = Some p0 → rotate 1 rolled !! 0%nat = Some q0 →
       rolled !! k = Some p → rotate 1 rolled !! k = Some q →
       dist2 q p ≤ dist2 q0 p0).
Proof.
  intros Hpix. split; [by intros ->|]. intros Hne.
  destruct (normalize poly) as [rolled|e] eqn:Hn.
  - destruct (normalize_rotate _ _ Hn) as (m & Hm & Hlt & ->).
    exists (rotate m poly), m. repeat (split; [done|]).
    intros p0 q0 k p q Hp0 Hq0 Hp Hq.
    pose proof (argmax_rotate _ _ Hm) as H0. rewrite <-segdists_rotate in H0.
    destruct (argmax_spec _ _ H0) as (v & Hv & Hmax).
    rewrite segdists_lookup, Hq0, Hp0 in Hv. injection Hv as <-.
    assert (∀ i x, rotate m poly !! i = Some x → coord15 x) as Hc.
    { intros i x Hx. rewrite Forall_forall in Hpix. apply Hpix.
      apply (elem_of_rotate _ m). by eapply list_elem_of_lookup_2. }
    assert (∀ i x, rotate 1 (rotate m poly) !! i = Some x → coord15 x) as Hc1.
    { intros i x Hx. rewrite Forall_forall in Hpix. apply Hpix.
      apply (elem_of_rotate _ m), (elem_of_rotate _ 1).
      by eapply list_elem_of_lookup_2. }
    rewrite (edge_exact q0 p0) in Hmax by eauto.
    destruct Hmax as [[=]|Hall]. rewrite Forall_forall in Hall.
    assert (segdists (rotate m poly) !! k = Some (edge q p)) as Hk
      by (by rewrite segdists_lookup, Hq, Hp).
    apply list_elem_of_lookup_2, Hall in Hk.
    rewrite (edge_exact q p) in Hk by eauto. simpl in Hk.
    by apply bool_decide_eq_true in Hk.
  - exfalso. unfold normalize in Hn.
    destruct (argmax (segdists poly)) as [m|] eqn:Hm; [done|].
    destruct poly as [|p poly]; [done|]. unfold argmax in Hm.
    pose proof (length_segdists (p :: poly)) as Hl.
    by destruct (segdists (p :: poly)).
Qed.

Lemma normalize_longest_first_hexagon :
  (hexagon = [] → normalize hexagon = Err ValueError) ∧
  (hexagon ≠ [] →
   ∃ rolled m,
     normalize hexagon = Ok rolled ∧ (m < length hexagon)%nat ∧
     rolled = rotate m hexagon ∧
     ∀ p0 q0 k p q,
       rolled !! 0%nat = Some p0 → rotate 1 rolled !! 0%nat = Some q0 →
       rolled !! k = Some p → rotate 1 rolled !! k = Some q →
       dist2 q p ≤ dist2 q0 p0).
Proof.
  apply (normalize_longest_first hexagon).
  repeat constructor; by vm_compute.
Defined.

(** The orientation steps only rotate: every polygon that [vertices]
    returns is the convex hull of its junction started at another vertex,
    with the same vertices in the same cyclic order. *)
Theorem vertices_rotation findNonZero KMeans convexHull ragged_raises newpoints Dict conn :
  vertices findNonZero KMeans convexHull ragged_raises newpoints Dict = Ok conn →
  ∀ i verts, conn !! i = Some verts →
    ∃ q poly k,
      newpoints !! i = Some (Row q) ∧
      hull_of findNonZero KMeans convexHull (q.2, q.1) = Ok poly ∧
      verts = rotate k poly ∧ verts ≡ₚ poly ∧ length verts = length poly.
Proof.
  unfold vertices.
  destruct (polygons findNonZero KMeans convexHull Dict 0 newpoints) as [c|] eqn:Hc; simpl; [|done].
  intros ->%np_array_Ok. destruct (polygons_lookup _ _ _ _ _ _ _ Hc) as [_ Hall].
  intros i verts Hi. destruct (Hall i verts Hi) as (it & Hit & Hp).
  simpl in Hp. unfold polygon in Hp.
  destruct it as [q|a]; simpl in Hp; [|done].
  destruct (hull_of findNonZero KMeans convexHull (q.2, q.1)) as [poly|] eqn:Hpoly; simpl in Hp; [|done].
  destruct (normalize poly) as [rolled|] eqn:Hn; simpl in Hp; [|done].
  destruct (Dict_get Dict i) as [label|]; simpl in Hp; [|done].
  injection Hp as <-. destruct (normalize_rotate _ _ Hn) as (m & _ & _ & ->).
  exists q, poly. unfold relabel. case_bool_decide.
  - unfold roll. rewrite rotate_rotate. eexists.
    split; [done|]. split; [done|]. split; [done|].
    split; [apply rotate_Permutation|apply length_rotate].
  - exists m. split; [done|]. split; [done|]. split; [done|].
    split; [apply rotate_Permutation|apply length_rotate].
Qed.

Lemma vertices_rotation_two_junctions :
  ∃ q poly k,
    two_junctions !! 1%nat = Some (Row q) ∧
    hull_of (λ _, Some hexagon) (λ index, Ok index) hull_from_right (q.2, q.1) = Ok poly ∧
    [(80, 136); (60, 100); (80, 65); (120, 66); (140, 100); (120, 135)]
      = rotate k poly ∧
    [(80, 136); (60, 100); (80, 65); (120, 66); (140, 100); (120, 135)] ≡ₚ poly ∧
    length [(80, 136); (60, 100); (80, 65); (120, 66); (140, 100); (120, 135)]
      = length poly.
Proof.
  apply (vertices_rotation (λ _, Some hexagon) (λ index, Ok index) hull_from_right true
           two_junctions two_labels two_polygons).
  - by vm_compute.
  - reflexivity.
Defined.

(** With a numpy that refuses ragged lists, [vertices] returns only
    polygons of one and the same number of vertices: as soon as two
    junctions give hulls of different sizes, line 179 raises [ValueError]
    and no polygon is returned at all; an older numpy returns them as
    they are. *)
Theorem vertices_uniform findNonZero KMeans convexHull newpoints Dict :
  (∀ conn, vertices findNonZero KMeans convexHull true newpoints Dict = Ok conn →
     ∀ v v', v ∈ conn → v' ∈ conn → length v = length v') ∧
  (∀ conn v v', polygons findNonZero KMeans convexHull Dict 0 newpoints = Ok conn →
     v ∈ conn → v' ∈ conn → length v ≠ length v' →
     vertices findNonZero KMeans convexHull true newpoints Dict = Err ValueError ∧
     vertices findNonZero KMeans convexHull false newpoints Dict = Ok conn).
Proof.
  unfold vertices.
  assert (∀ conn : list (list point),
            np_array true (λ verts, [length verts; 2%nat]) conn = Ok conn →
            ∀ v v', v ∈ conn → v' ∈ conn → length v = length v') as Hsame.
  { intros [|x conn]; simpl; [by intros _ v v' ?%elem_of_nil|].
    case_bool_decide as Hall; [|done]. intros _.
    assert (∀ v, v ∈ x :: conn → length v = length x) as Hx.
    { intros v [->|Hv]%elem_of_cons; [done|].
      rewrite Forall_forall in Hall. by injection (Hall v Hv). }
    intros v v' Hv Hv'. by rewrite (Hx v Hv), (Hx v' Hv'). }
  split.
  - intros conn. destruct (polygons _ _ _ _ _ _) as [c|]; simpl; [|done].
    intros Hc. pose proof (np_array_Ok _ _ _ _ Hc) as ->. by apply Hsame.
  - intros conn v v' -> Hv Hv' Hne. simpl. split.
    + destruct conn as [|x conn]; [by apply elem_of_nil in Hv|].
      destruct (np_array true _ (x :: conn)) as [c|e] eqn:Hc.
      * pose proof (np_array_Ok _ _ _ _ Hc) as ->.
        by destruct Hne; apply (Hsame _ Hc).
      * simpl in Hc. case_bool_decide; [done|]. by injection Hc as <-.
    + destruct conn as [|x conn]; [done|]. simpl. by case_bool_decide.
Qed.

Lemma vertices_uniform_mixed :
  vertices (λ c, if decide (c = (100, 100)) then Some hexagon else Some close_crossings)
           (λ index, Ok index) hull_from_right true [Row (100, 100); Row (200, 200)] two_labels
    = Err ValueError ∧
  vertices (λ c, if decide (c = (100, 100)) then Some hexagon else Some close_crossings)
           (λ index, Ok index) hull_from_right false [Row (100, 100); Row (200, 200)] two_labels
    = Ok [[(140, 100); (120, 135); (80, 136); (60, 100); (80, 65); (120, 66)];
          [(60, 100); (101, 60); (140, 92); (140, 108); (100, 140)]].
Proof.
  apply (proj2 (vertices_uniform
                  (λ c, if decide (c = (100, 100)) then Some hexagon else Some close_crossings)
                  (λ index, Ok index) hull_from_right [Row (100, 100); Row (200, 200)] two_labels)
           [[(140, 100); (120, 135); (80, 136); (60, 100); (80, 65); (120, 66)];
            [(60, 100); (101, 60); (140, 92); (140, 108); (100, 140)]]
           [(140, 100); (120, 135); (80, 136); (60, 100); (80, 65); (120, 66)]
           [(60, 100); (101, 60); (140, 92); (140, 108); (100, 140)]).
  - by vm_compute.
  - by left.
  - right. by left.
  - done.
Defined.

End VerticesMore.

(* ================================================================== *)
(** ** roidetect.warp: the order of the marker centres *)

Module WarpMore.
Import Warp WarpProps.

#[local] Existing Instance id_le_dec.

#[local] Instance id_le_trans : Transitive id_le.
Proof. unfold id_le. intros x y z. lia. Qed.

#[local] Instance id_le_total : Total id_le.
Proof. unfold id_le. intros x y. lia. Qed.

Lemma same_key_same_pair {A B} (l : list (A * B)) x y1 y2 :
  NoDup l.*1 → (x, y1) ∈ l → (x, y2) ∈ l → y1 = y2.
Proof.
  induction l as [|[a b] l IH]; simpl; intros Hnd H1 H2.
  - by apply elem_of_nil in H1.
  - apply NoDup_cons in Hnd as [Ha Hnd].
    assert (∀ y, (a, y) ∈ l → False) as Hno.
    { intros y Hy. apply Ha. apply list_elem_of_fmap. by exists (a, y). }
    apply elem_of_cons in H1 as [H1|H1]; apply elem_of_cons in H2 as [H2|H2].
    + congruence.
    + injection H1 as -> ->. exfalso. eauto.
    + injection H2 as -> ->. exfalso. eauto.
    + by apply IH.
Qed.

(** Sorting by id forgets the order of detection. *)
Lemma sorted_pairs_Permutation (l l' : list (Z * point)) :
  l ≡ₚ l' → NoDup l.*1 → sorted_pairs l = sorted_pairs l'.
Proof.
  intros Hperm Hnd. unfold sorted_pairs.
  assert (NoDup l'.*1) as Hnd' by (by rewrite <-Hperm).
  rewrite !bool_decide_eq_true_2 by done. f_equal.
  apply (Sorted_unique_strong id_le).
  - intros [k1 c1] [k2 c2] H1 H2 Hle1 Hle2. unfold id_le in *. simpl in *.
    assert (k1 = k2) as -> by lia. f_equal.
    rewrite merge_sort_Permutation in H1, H2. rewrite <-Hperm in H2.
    exact (same_key_same_pair l k2 c1 c2 Hnd H1 H2).
  - apply Sorted_merge_sort. apply _.
  - apply Sorted_merge_sort. apply _.
  - by rewrite !merge_sort_Permutation.
Qed.

(** [warp] registers on the marker centres in increasing id order, in
    whatever order [aruco.detectMarkers] lists the markers: two detections
    of the same markers give the same [coord2], a list of the detected
    centres whose k-th entry belongs to the k-th smallest id. *)
Theorem coord2_order_invariant (Quad : Type) (centre : Quad → point)
    (d d' : detection Quad) (fl fl' : list Z) :
  ids Quad d = Some fl → ids Quad d' = Some fl' →
  NoDup fl → length fl = n_markers Quad d →
  zip fl (centre <$> corners Quad d) ≡ₚ zip fl' (centre <$> corners Quad d') →
  coord2 Quad centre d = coord2 Quad centre d' ∧
  ∃ pair, coord2 Quad centre d = Ok pair.*2 ∧
          pair ≡ₚ zip fl (centre <$> corners Quad d) ∧
          StronglySorted (λ x y, x.1 < y.1) pair.
Proof.
  intros Hid Hid' Hnd Hlen Hperm.
  assert (NoDup (zip fl (centre <$> corners Quad d)).*1) as Hkeys.
  { rewrite fst_zip; [done|]. rewrite length_fmap. unfold n_markers in Hlen. lia. }
  unfold coord2, flat_ids. rewrite Hid, Hid'. simpl.
  rewrite <-(sorted_pairs_Permutation _ _ Hperm Hkeys). split; [done|].
  unfold sorted_pairs. rewrite bool_decide_eq_true_2 by done. simpl.
  eexists. split; [done|]. split; [apply merge_sort_Permutation|].
  set (l := zip fl (centre <$> corners Quad d)) in *.
  pose proof (merge_sort_Permutation id_le l) as Hp.
  assert (NoDup (merge_sort id_le l).*1) as Hnd2 by (by rewrite Hp).
  pose proof (StronglySorted_merge_sort id_le l) as Hs.
  revert Hs Hnd2. generalize (merge_sort id_le l). clear.
  induction 1 as [|x m Hm IH Hx]; intros Hnd; [constructor|].
  rewrite fmap_cons in Hnd. apply NoDup_cons in Hnd as [Hx1 Hnd].
  constructor; [by apply IH|].
  rewrite Forall_forall in Hx. apply Forall_forall. intros y Hy.
  specialize (Hx y Hy). unfold id_le in Hx.
  assert (x.1 ≠ y.1); [|lia]. intros Heq. apply Hx1.
  rewrite Heq. apply list_elem_of_fmap. by exists y.
Qed.

Lemma coord2_order_invariant_three_markers :
  coord2 point id three_markers = coord2 point id three_markers_again ∧
  ∃ pair, coord2 point id three_markers = Ok pair.*2 ∧
          pair ≡ₚ zip [2; 0; 1] (id <$> corners point three_markers) ∧
          StronglySorted (λ x y, x.1 < y.1) pair.
Proof.
  apply (coord2_order_invariant point id three_markers three_markers_again
           [2; 0; 1] [1; 2; 0]).
  - reflexivity.
  - reflexivity.
  - apply (bool_decide_unpack (NoDup _)). vm_compute. exact I.
  - reflexivity.
  - symmetry. apply (Permutation_cons_append [(2, (10, 10)); (0, (200, 12))]).
Defined.

End WarpMore.

(* ================================================================== *)
(** ** bridgedetect: the output file and the frame that is read *)

Module BridgeMore.
Import Numpy Bridge BridgeProps.

Lemma save_rois_other abspath fs rois outfile imagename append other :
  other ≠ outfile →
  (save_rois abspath fs rois outfile imagename append).2 !! other = fs !! other.
Proof.
  intros Hne. unfold save_rois, write, open_file.
  destruct (record abspath rois imagename) as [text|e]; simpl;
    destruct (fs !! outfile) as [old|]; try destruct append;
    rewrite ?lookup_insert_ne by done; done.
Qed.

(** Two calls on lists of quadruples: appending keeps what the file held
    and adds the two records in call order; overriding in the second call
    leaves the second record alone; no other file changes. *)
Theorem save_rois_twice abspath fs rois1 rois2 outfile image1 image2 :
  Forall (λ x, length x = 4%nat) rois1 → Forall (λ x, length x = 4%nat) rois2 →
  ∃ text1 text2,
    record abspath rois1 image1 = Ok text1 ∧
    record abspath rois2 image2 = Ok text2 ∧
    let fs1 := (save_rois abspath fs rois1 outfile image1 true).2 in
    (save_rois abspath fs1 rois2 outfile image2 true).2 !! outfile
      = Some (default EmptyString (fs !! outfile) +:+ text1 +:+ text2) ∧
    (save_rois abspath fs1 rois2 outfile image2 false).2 !! outfile = Some text2 ∧
    ∀ other append, other ≠ outfile →
      (save_rois abspath fs1 rois2 outfile image2 append).2 !! other = fs !! other.
Proof.
  intros H1 H2.
  destruct (format_rois_quads rois1 H1) as (q1 & Hq1 & _).
  destruct (format_rois_quads rois2 H2) as (q2 & Hq2 & _).
  assert (∃ t1, record abspath rois1 image1 = Ok t1) as [t1 Ht1]
    by (unfold record; rewrite Hq1; by eexists).
  assert (∃ t2, record abspath rois2 image2 = Ok t2) as [t2 Ht2]
    by (unfold record; rewrite Hq2; by eexists).
  exists t1, t2. split; [done|]. split; [done|]. simpl.
  rewrite (save_rois_Ok _ fs _ _ _ true _ Ht1). simpl.
  rewrite !(save_rois_Ok _ _ _ _ _ _ _ Ht2). simpl. split; [|split].
  - rewrite lookup_insert_eq. f_equal. unfold kept.
    rewrite lookup_insert_eq, append_assoc.
    by destruct (fs !! outfile).
  - rewrite lookup_insert_eq. unfold kept. by rewrite lookup_insert_eq.
  - intros other append Hne. rewrite save_rois_other by done.
    by rewrite lookup_insert_ne.
Qed.

Lemma save_rois_twice_two_records :
  ∃ text1 text2,
    record (λ name, name) [[30; 20; 5; 7]] "a.avi" = Ok text1 ∧
    record (λ name, name) [[4; 4; 100; 50]] "b.avi" = Ok text2 ∧
    let fs1 := (save_rois (λ name, name) ∅ [[30; 20; 5; 7]] "rois.txt" "a.avi" true).2 in
    (save_rois (λ name, name) fs1 [[4; 4; 100; 50]] "rois.txt" "b.avi" true).2
      !! "rois.txt"
      = Some (default EmptyString ((∅ : files) !! "rois.txt") +:+ text1 +:+ text2) ∧
    (save_rois (λ name, name) fs1 [[4; 4; 100; 50]] "rois.txt" "b.avi" false).2
      !! "rois.txt" = Some text2 ∧
    ∀ other append, other ≠ "rois.txt" →
      (save_rois (λ name, name) fs1 [[4; 4; 100; 50]] "rois.txt" "b.avi" append).2
        !! other = (∅ : files) !! other.
Proof.
  apply (save_rois_twice (λ name, name) ∅ [[30; 20; 5; 7]] [[4; 4; 100; 50]]
           "rois.txt" "a.avi" "b.avi"); repeat constructor.
Defined.

Lemma format_rois_malformed rois :
  ¬ Forall (λ x, length x = 4%nat) rois → format_rois rois = Err TypeError.
Proof.
  induction rois as [|x rois IH]; intros Hbad; [by destruct Hbad|]. simpl.
  destruct (decide (length x = 4%nat)) as [Hx|Hx].
  - destruct x as [|a [|b [|c [|d [|]]]]]; try done. simpl.
    rewrite IH; [done|]. intros Hall. apply Hbad. by constructor.
  - by destruct x as [|a [|b [|c [|d [|]]]]].
Qed.

(** A region that is not a quadruple makes [save_rois] raise [TypeError]
    after the file has been opened: nothing is written, a missing file
    has been created empty, and when overriding ([append] false) what the
    file held is lost. *)
Theorem save_rois_malformed abspath fs rois outfile imagename append :
  ¬ Forall (λ x, length x = 4%nat) rois →
  (save_rois abspath fs rois outfile imagename append).1 = Err TypeError ∧
  (save_rois abspath fs rois outfile imagename append).2 !! outfile
    = Some (kept fs outfile append) ∧
  (append = false →
   (save_rois abspath fs rois outfile imagename append).2 !! outfile
     = Some EmptyString).
Proof.
  intros Hbad. unfold save_rois, record.
  rewrite (format_rois_malformed rois Hbad). simpl. split; [done|].
  unfold open_file, kept. destruct (fs !! outfile) as [old|] eqn:Hold.
  - destruct append; [by split|]. rewrite lookup_insert_eq. by split.
  - rewrite lookup_insert_eq. by split.
Qed.

Lemma save_rois_malformed_triple :
  (save_rois (λ name, name) {["rois.txt" := "kept"]} [[30; 20; 5]]
             "rois.txt" "a.avi" false).1 = Err TypeError ∧
  (save_rois (λ name, name) {["rois.txt" := "kept"]} [[30; 20; 5]]
             "rois.txt" "a.avi" false).2 !! "rois.txt"
    = Some (kept {["rois.txt" := "kept"]} "rois.txt" false) ∧
  (false = false →
   (save_rois (λ name, name) {["rois.txt" := "kept"]} [[30; 20; 5]]
              "rois.txt" "a.avi" false).2 !! "rois.txt" = Some EmptyString).
Proof.
  apply (save_rois_malformed (λ name, name) {["rois.txt" := "kept"]} [[30; 20; 5]]
           "rois.txt" "a.avi" false).
  intros H. inversion H as [|? ? Hlen]. discriminate Hlen.
Defined.

Section frames.

Context {Frame Mask : Type}.
Variable find_red : Frame → option Mask.
Variable smooth_regions : Mask → option Mask.

Lemma skip_drop n : ∀ frames : list Frame,
  skip Frame n frames
  = if decide (n ≤ length frames)%nat then Ok (drop n frames) else Err SystemExit.
Proof.
  induction n as [|n IH]; intros frames.
  - destruct (decide (0 ≤ length frames)%nat); [done|lia].
  - destruct frames as [|f frames].
    + destruct (decide (S n ≤ length (@nil Frame))%nat) as [H|H];
        [simpl in H; lia|done].
    + change (skip Frame (S n) (f :: frames)) with (skip Frame n frames).
      rewrite IH.
      destruct (decide (n ≤ length frames)%nat),
               (decide (S n ≤ length (f :: frames))%nat);
        simpl in *; try done; lia.
Qed.

End frames.

(** The legacy entry point works on frame number [--frame], counted from
    1 (and on the first frame for any number below 1); it leaves through
    [arg_parser.error] exactly when the video has fewer frames. *)
Theorem frame_mask_frame (Frame Mask : Type) (find_red : Frame → option Mask)
    (smooth_regions : Mask → option Mask) (a : args) (frames : list Frame) :
  (∀ fr, frames !! Z.to_nat (frame a - 1) = Some fr →
     frame_mask Frame Mask find_red smooth_regions a frames
       = match find_red fr ≫= smooth_regions with
         | Some mask => Ok mask
         | None => Err cv2_error
         end) ∧
  (frames !! Z.to_nat (frame a - 1) = None ↔
   frame_mask Frame Mask find_red smooth_regions a frames = Err SystemExit).
Proof.
  unfold frame_mask. rewrite skip_drop.
  set (n := Z.to_nat (frame a - 1)).
  destruct (decide (n ≤ length frames)%nat) as [Hn|Hn]; simpl.
  - assert (read Frame (drop n frames)
            = (frames !! n, drop (S n) frames)) as ->.
    { rewrite <-(Nat.add_0_r n) at 2. rewrite <-lookup_drop.
      replace (S n) with (n + 1)%nat by lia. rewrite <-drop_drop.
      by destruct (drop n frames). }
    split.
    + intros fr ->. destruct (find_red fr) as [m|]; simpl; [|done].
      by destruct (smooth_regions m).
    + destruct (frames !! n) as [fr|]; [|done]. split; [done|].
      destruct (find_red fr) as [m|]; [|done]. by destruct (smooth_regions m).
  - split.
    + intros fr Hfr. apply lookup_lt_Some in Hfr. lia.
    + split; [done|]. intros _. apply lookup_ge_None_2. lia.
Qed.

Lemma frame_mask_frame_second :
  frame_mask nat nat Some Some
    {| video := "a.avi"; outfile := "rois.txt"; override := true; frame := 2 |}
    [7%nat; 8%nat]
  = match Some 8%nat ≫= Some with
    | Some mask => Ok mask
    | None => Err cv2_error
    end.
Proof.
  apply (proj1 (frame_mask_frame nat nat Some Some
           {| video := "a.avi"; outfile := "rois.txt"; override := true; frame := 2 |}
           [7%nat; 8%nat]) 8%nat).
  reflexivity.
Defined.

(** What [convert_polygon_to_roi] returns is always a quadruple: on the
    regions of any polygons [save_rois] raises nothing and writes its
    record. *)
Theorem save_rois_of_polygons abspath fs polys rois outfile imagename append :
  Forall2 (λ poly x, convert_polygon_to_roi poly = Ok x) polys rois →
  ∃ text,
    record abspath rois imagename = Ok text ∧
    save_rois abspath fs rois outfile imagename append
      = (Ok (), <[outfile := kept fs outfile append +:+ text]> fs).
Proof.
  intros Hrois.
  assert (Forall (λ x, length x = 4%nat) rois) as Hlen.
  { induction Hrois as [|poly x polys rois Hx _ IH]; constructor; [|done].
    destruct poly as [|p poly]; [done|]. by injection Hx as <-. }
  destruct (format_rois_quads rois Hlen) as (quads & Hq & _).
  eexists. split; [unfold record; by rewrite Hq|].
  apply save_rois_Ok. unfold record. by rewrite Hq.
Qed.

Lemma save_rois_of_polygons_triangle :
  ∃ text,
    record (λ name, name) [[30; 20; 5; 7]] "a.avi" = Ok text ∧
    save_rois (λ name, name) ∅ [[30; 20; 5; 7]] "rois.txt" "a.avi" true
      = (Ok (), <["rois.txt" := kept ∅ "rois.txt" true +:+ text]> ∅).
Proof.
  apply (save_rois_of_polygons (λ name, name) ∅ [[(5, 7); (35, 17); (20, 27)]]
           [[30; 20; 5; 7]] "rois.txt" "a.avi" true).
  repeat constructor.
Defined.

End BridgeMore.

(* ================================================================== *)
(** ** roidetect.contour *)

Module ContourProps.
Import Contour.

(** [max] ends on the first item of greatest key. *)
Lemma max_scan_spec {A} (key : A → Z) rest : ∀ best,
  (max_scan key best rest = best ∧ ∀ x, x ∈ rest → key x ≤ key best) ∨
  (∃ i, rest !! i = Some (max_scan key best rest) ∧
        key best < key (max_scan key best rest) ∧
        (∀ x, x ∈ rest → key x ≤ key (max_scan key best rest)) ∧
        ∀ j x, (j < i)%nat → rest !! j = Some x → key x < key (max_scan key best rest)).
Proof.
  induction rest as [|y rest IH]; intros best; simpl.
  - left. split; [done|]. intros x Hx. by apply elem_of_nil in Hx.
  - case_bool_decide as Hy.
    + right. destruct (IH y) as [[-> Hle]|(i & Hi & Hlt & Hle & Hbefore)].
      * exists 0%nat. split; [done|]. split; [done|]. split.
        -- intros x [->|Hx]%elem_of_cons; [lia|by apply Hle].
        -- intros j x Hj. lia.
      * exists (S i). split; [done|]. split; [lia|]. split.
        -- intros x [->|Hx]%elem_of_cons; [lia|by apply Hle].
        -- intros [|j] x Hj Hx; simpl in Hx.
           ++ injection Hx as <-. lia.
           ++ apply (Hbefore j x); [lia|done].
    + destruct (IH best) as [[-> Hle]|(i & Hi & Hlt & Hle & Hbefore)].
      * left. split; [done|]. intros x [->|Hx]%elem_of_cons; [lia|by apply Hle].
      * right. exists (S i). split; [done|]. split; [done|]. split.
        -- intros x [->|Hx]%elem_of_cons; [lia|by apply Hle].
        -- intros [|j] x Hj Hx; simpl in Hx.
           ++ injection Hx as <-. lia.
           ++ apply (Hbefore j x); [lia|done].
Qed.

(** [contour] raises [ValueError] exactly when OpenCV finds no contour in
    the mask (a black mask); otherwise it draws one of the contours found,
    the first one of largest area. *)
Theorem contour_largest (Mask : Type) (findContours : Mask → list (list point))
    (mask : Mask) :
  (contour Mask findContours mask = Err ValueError ↔ findContours mask = []) ∧
  ∀ cont, contour Mask findContours mask = Ok cont →
    ∃ i, findContours mask !! i = Some cont ∧
         (∀ c, c ∈ findContours mask → contourArea2 c ≤ contourArea2 cont) ∧
         ∀ j c, (j < i)%nat → findContours mask !! j = Some c →
                contourArea2 c < contourArea2 cont.
Proof.
  unfold contour, py_max. destruct (findContours mask) as [|c0 rest]; [by split|].
  split; [by split|]. intros cont [= <-].
  destruct (max_scan_spec contourArea2 rest c0)
    as [[-> Hle]|(i & Hi & Hlt & Hle & Hbefore)].
  - exists 0%nat. split; [done|]. split.
    + intros c [->|Hc]%elem_of_cons; [lia|by apply Hle].
    + intros j c Hj. lia.
  - exists (S i). split; [done|]. split.
    + intros c [->|Hc]%elem_of_cons; [lia|by apply Hle].
    + intros [|j] c Hj Hc; simpl in Hc.
      * injection Hc as <-. lia.
      * apply (Hbefore j c); [lia|done].
Qed.

Lemma contour_largest_three_contours :
  ∃ i, three_contours !! i = Some [(10, 10); (10, 13); (13, 13); (13, 10)] ∧
       (∀ c, c ∈ three_contours →
             contourArea2 c ≤ contourArea2 [(10, 10); (10, 13); (13, 13); (13, 10)]) ∧
       ∀ j c, (j < i)%nat → three_contours !! j = Some c →
              contourArea2 c < contourArea2 [(10, 10); (10, 13); (13, 13); (13, 10)].
Proof.
  apply (proj2 (contour_largest unit (λ _, three_contours) ())
           [(10, 10); (10, 13); (13, 13); (13, 10)]).
  reflexivity.
Defined.

End ContourProps.

(* ================================================================== *)
(** ** bridgedetect.find_red *)

Module FindRedProps.
Import FindRed.

Lemma red_cases hue_diff min_saturation min_value px :
  hsv8 px →
  red hue_diff min_saturation min_value px
  = if decide (low_red hue_diff min_saturation min_value px)
    then if decide (high_red hue_diff min_saturation min_value px) then 0 else 1
    else if decide (high_red hue_diff min_saturation min_value px) then 1 else 0.
Proof.
  destruct px as [[h s] v]. unfold hsv8, red, inRange, low_red, high_red, add_uint8.
  simpl. intros (Hh & Hs & Hv).
  repeat case_bool_decide; repeat case_decide; try done; lia.
Qed.

(** [find_red] marks with 1 the pixels that lie in exactly one of the two
    hue ranges (with saturation and value at or above their minima) and
    with 0 all others: the sum of the two uint8 masks wraps to 254 on a
    pixel that lies in both, which [// 255] turns into 0.  With a hue
    tolerance below 90 the ranges do not meet and a pixel is marked
    exactly when its hue is within the tolerance of 0 or of 180. *)
Theorem find_red_exactly_one_range (Image : Type)
    (cvtColor : Image → option (list pixel3)) (rgb : Image)
    (hue_diff min_saturation min_value : Z) (hsv : list pixel3) :
  cvtColor rgb = Some hsv → Forall hsv8 hsv →
  ∃ out, find_red Image cvtColor rgb hue_diff min_saturation min_value = Ok out ∧
         length out = length hsv ∧
         ∀ i px m, hsv !! i = Some px → out !! i = Some m →
           (m = 0 ∨ m = 1) ∧
           (m = 1 ↔ (low_red hue_diff min_saturation min_value px ∧
                     ¬ high_red hue_diff min_saturation min_value px) ∨
                    (high_red hue_diff min_saturation min_value px ∧
                     ¬ low_red hue_diff min_saturation min_value px)) ∧
           (hue_diff < 90 →
            (m = 1 ↔ low_red hue_diff min_saturation min_value px ∨
                     high_red hue_diff min_saturation min_value px)).
Proof.
  intros Hcvt Hall. unfold find_red. rewrite Hcvt. eexists. split; [done|].
  split; [by rewrite length_fmap|]. intros i px m Hpx Hm.
  rewrite list_lookup_fmap, Hpx in Hm. injection Hm as <-.
  rewrite Forall_forall in Hall.
  assert (hsv8 px) as Hp by (by eapply Hall, list_elem_of_lookup_2).
  rewrite (red_cases _ _ _ _ Hp).
  destruct (decide (low_red hue_diff min_saturation min_value px)) as [Hl|Hl],
           (decide (high_red hue_diff min_saturation min_value px)) as [Hh|Hh].
  - split; [by left|]. split; [split; [done|tauto]|].
    intros Hd. exfalso. unfold low_red, high_red in *. lia.
  - split; [by right|]. split; [tauto|]. tauto.
  - split; [by right|]. split; [tauto|]. tauto.
  - split; [by left|]. split; [split; [done|tauto]|]. intros _.
    split; [done|tauto].
Qed.

Lemma find_red_exactly_one_range_overlap :
  ∃ out, find_red unit (λ _, Some [(95, 200, 200); (5, 200, 200); (60, 10, 200)])
           () 100 50 50 = Ok out ∧
         length out = length [(95, 200, 200); (5, 200, 200); (60, 10, 200)] ∧
         ∀ i px m,
           [(95, 200, 200); (5, 200, 200); (60, 10, 200)] !! i = Some px →
           out !! i = Some m →
           (m = 0 ∨ m = 1) ∧
           (m = 1 ↔ (low_red 100 50 50 px ∧ ¬ high_red 100 50 50 px) ∨
                    (high_red 100 50 50 px ∧ ¬ low_red 100 50 50 px)) ∧
           (100 < 90 → (m = 1 ↔ low_red 100 50 50 px ∨ high_red 100 50 50 px)).
Proof.
  apply (find_red_exactly_one_range unit
           (λ _, Some [(95, 200, 200); (5, 200, 200); (60, 10, 200)]) () 100 50 50
           [(95, 200, 200); (5, 200, 200); (60, 10, 200)]).
  - reflexivity.
  - repeat constructor; by vm_compute.
Defined.

End FindRedProps.

(* ================================================================== *)
(** ** roidetect.main *)

Module RoiMainProps.
Import Numpy NumpyProps Nodes Centers CentersProps Hull Vertices VerticesProps Warp
       Contour.
Import RoiMain.

(** The label table has the keys 0 to 30. *)
Lemma Dict_keys i : is_Some (Dict !! i) → (i < 31)%nat.
Proof.
  intros [label Hl]. unfold Dict in Hl.
  apply elem_of_list_to_map_2 in Hl.
  repeat (apply elem_of_cons in Hl as [[= -> _]|Hl]; [lia|]).
  by apply elem_of_nil in Hl.
Qed.

(** The table is read through [Dict_keys] only. *)
Local Opaque Dict.

Section main.

Context {Frame Gray Mask Quad Matrix : Type}.
Variable isfile : string → bool.
Variable read_video : string → option Frame.
Variable cvtColor : Frame → option Gray.
Variable detectMarkers : Gray → detection Quad.
Variable centre : Quad → point.
Variable findHomography : list point → list point → option (option Matrix).
Variable warpPerspective : Gray → Matrix → option Gray.
Variable mask : Gray → option Mask.
Variable build_sknw : Mask → Graph.
Variable findContours : Mask → list (list point).
Variable findNonZero : list point → point → option (list point).
Variable KMeans : list point → result (list point).
Variable convexHull : list point → list point.
Variable ragged_raises : bool.

Let gray_frame' := gray_frame Frame Gray isfile read_video cvtColor.
Let detect' :=
  detect Gray Mask Quad Matrix detectMarkers centre findHomography warpPerspective
         mask build_sknw findContours findNonZero KMeans convexHull ragged_raises.
Let main' :=
  main Frame Gray Mask Quad Matrix isfile read_video cvtColor detectMarkers centre
       findHomography warpPerspective mask build_sknw findContours findNonZero
       KMeans convexHull ragged_raises.

(** A path that is no file ends [main] through [arg_parser.error]; a file
    from which no frame can be read makes [cv2.cvtColor] raise on [None],
    so that the exit of line 209 for a short video is never taken. *)
Theorem main_without_frame video coord1 reference :
  (isfile video = false → main' video coord1 reference = Err SystemExit) ∧
  (isfile video = true → read_video video = None →
     main' video coord1 reference = Err cv2_error) ∧
  (isfile video = true → gray_frame' video ≠ Err SystemExit).
Proof.
  unfold main', gray_frame', main, gray_frame. split; [|split].
  - by intros ->.
  - by intros -> ->.
  - intros ->. simpl. destruct (read_video video) as [f|]; simpl; [|done].
    by destruct (cvtColor f).
Qed.

(** On a black mask, with an empty skeleton graph and no contour, [nodes]
    and [centers] return and the run ends in the [ValueError] of [max] on
    the empty contour list, inside [contour]. *)
Theorem main_black_mask video coord1 reference gray M result m :
  gray_frame' video = Ok gray →
  warp Gray Quad Matrix centre findHomography warpPerspective gray
       (detectMarkers gray) coord1 = Ok (M, result) →
  mask result = Some m → build_sknw m = [] → findContours m = [] →
  nodes (build_sknw m) = Ok [] ∧
  centers ragged_raises reference []
    = Ok (replicate (length reference) (NewAxis [])) ∧
  contour Mask findContours m = Err ValueError ∧
  main' video coord1 reference = Err ValueError.
Proof.
  intros Hg Hw Hm Hb Hc.
  assert (centers ragged_raises reference []
          = Ok (replicate (length reference) (NewAxis []))) as Hcen.
  { unfold centers. rewrite gather_pick. simpl.
    assert ((λ r, pick r []) <$> reference
            = replicate (length reference) (NewAxis [])) as ->.
    { clear. induction reference as [|r l IH]; [done|].
      rewrite fmap_cons, IH. done. }
    apply (np_array_uniform _ _ _ (shape (NewAxis []))).
    by apply Forall_replicate. }
  assert (contour Mask findContours m = Err ValueError) as Hcon
    by (unfold contour; by rewrite Hc).
  split; [by rewrite Hb|]. split; [done|]. split; [done|].
  unfold main', main. fold gray_frame'. rewrite Hg. simpl.
  unfold detect. rewrite Hw. simpl. rewrite Hm. simpl. rewrite Hb.
  change (nodes []) with (Ok (A:=list point) []). simpl.
  rewrite Hcen. simpl. by rewrite Hcon.
Qed.

(** [main] returns polygons only for a reference table of at most 31
    junctions, as many as the label table has keys, and then one polygon
    per row of the table. *)
Theorem main_junction_bound video coord1 reference M verts :
  main' video coord1 reference = Ok (M, verts) →
  (length reference ≤ 31)%nat ∧ length verts = length reference.
Proof.
  unfold main', main. fold gray_frame'.
  destruct (gray_frame' video) as [gray|]; simpl; [|done].
  unfold detect. destruct (warp _ _ _ _ _ _ _ _ _) as [Mr|]; simpl; [|done].
  destruct (mask Mr.2) as [fm|]; simpl; [|done].
  destruct (nodes (build_sknw fm)) as [query|]; simpl; [|done].
  destruct (centers ragged_raises reference query) as [newpoints|] eqn:Hcen;
    simpl; [|done].
  destruct (contour Mask findContours fm) as [cont|]; simpl; [|done].
  destruct (vertices _ _ _ _ _ _) as [vs|] eqn:Hv; simpl; [|done].
  intros [= _ <-].
  assert (length newpoints = length reference) as Hlen.
  { unfold centers in Hcen. rewrite gather_pick in Hcen. simpl in Hcen.
    apply np_array_Ok in Hcen as ->. by rewrite length_fmap. }
  unfold vertices in Hv.
  destruct (polygons _ _ _ _ _ _) as [conn|] eqn:Hp; simpl in Hv; [|done].
  apply np_array_Ok in Hv as ->.
  destruct (polygons_lookup _ _ _ _ _ _ _ Hp) as [Hl Hall].
  split; [|congruence]. rewrite <-Hlen, <-Hl.
  destruct (decide (length conn ≤ 31)%nat) as [|Hbig]; [done|]. exfalso.
  destruct (lookup_lt_is_Some_2 conn 31) as [v31 Hv31]; [lia|].
  destruct (Hall _ _ Hv31) as (it & _ & Hpoly). simpl in Hpoly.
  unfold polygon in Hpoly. destruct (junction it) as [q|]; simpl in Hpoly; [|done].
  destruct (hull_of _ _ _ _) as [poly|]; simpl in Hpoly; [|done].
  destruct (normalize poly) as [rolled|]; simpl in Hpoly; [|done].
  unfold Dict_get in Hpoly. destruct (Dict !! 31%nat) as [label|] eqn:Hd; [|done].
  assert (31 < 31)%nat; [|lia]. apply Dict_keys. by rewrite Hd.
Qed.

End main.

Lemma main_without_frame_no_file :
  main unit unit unit point unit (λ _, false) (λ _, None) Some
       (λ _, three_markers) id (λ _ _, None) (λ _ _, None) Some
       (λ _, []) (λ _, []) (λ _ _, None) Ok hull_from_right true
       "video.mp4" three_references [] = Err SystemExit.
Proof.
  apply (proj1 (@main_without_frame unit unit unit point unit
                  (λ _, false) (λ _, None) Some
                  (λ _, three_markers) id (λ _ _, None) (λ _ _, None) Some
                  (λ _, []) (λ _, []) (λ _ _, None) Ok hull_from_right true
                  "video.mp4" three_references [])).
  reflexivity.
Defined.

Lemma main_black_mask_four_markers :
  nodes [] = Ok [] ∧
  centers true [(40, 40); (80, 80)] [] = Ok [NewAxis []; NewAxis []] ∧
  contour unit (λ _, []) () = Err ValueError ∧
  main unit unit unit point unit (λ _, true) (λ _, Some ()) Some
       (λ _, four_markers) id four_or_refuse (λ _ _, Some ()) Some
       (λ _, []) (λ _, []) (λ _ _, None) Ok hull_from_right true
       "video.mp4" four_references [(40, 40); (80, 80)] = Err ValueError.
Proof.
  apply (main_black_mask (λ _, true) (λ _, Some ()) Some
           (λ _, four_markers) id four_or_refuse (λ _ _, Some ()) Some
           (λ _, []) (λ _, []) (λ _ _, None) Ok hull_from_right true
           "video.mp4" four_references [(40, 40); (80, 80)] () () () ());
    reflexivity.
Defined.

Lemma main_junction_bound_star :
  (length [(50, 50); (52, 52)] ≤ 31)%nat ∧
  length [[(140, 100); (120, 135); (80, 136); (60, 100); (80, 65); (120, 66)];
          [(140, 100); (120, 135); (80, 136); (60, 100); (80, 65); (120, 66)]]
    = length [(50, 50); (52, 52)].
Proof.
  apply (main_junction_bound (λ _, true) (λ _, Some ()) Some
           (λ _, four_markers) id four_or_refuse (λ _ _, Some ()) Some
           (λ _, star) (λ _, [hexagon]) (λ _ _, Some hexagon) Ok hull_from_right true
           "video.mp4" four_references [(50, 50); (52, 52)] ()).
  vm_compute. reflexivity.
Defined.

End RoiMainProps.

(* ================================================================== *)
(** ** roilabel.label_rois *)

Module RoiLabelProps.
Import Bridge BridgeProps BridgeMore RoiLabel.

Lemma append_cons c (s t : string) : String c s +:+ t = String c (s +:+ t).
Proof. done. Qed.

Lemma append_empty_r (s : string) : s +:+ EmptyString = s.
Proof. induction s as [|c s IH]; [done|]. by rewrite append_cons, IH. Qed.

Lemma append_snoc (cur : string) c t :
  (cur +:+ String c EmptyString) +:+ t = cur +:+ String c t.
Proof. by rewrite append_assoc. Qed.

Lemma all_chars_app P s t : all_chars P (s +:+ t) = all_chars P s && all_chars P t.
Proof.
  induction s as [|c s IH]; [done|]. rewrite append_cons. simpl.
  by rewrite IH, andb_assoc.
Qed.

Lemma all_chars_impl (P Q : Ascii.ascii → bool) s :
  (∀ c, P c = true → Q c = true) → all_chars P s = true → all_chars Q s = true.
Proof.
  intros HPQ. induction s as [|c s IH]; [done|]. simpl.
  intros [Hc Hs]%andb_prop. by rewrite (HPQ c Hc), IH.
Qed.

(** [split] cuts at a white space character. *)
Lemma split_go_space pre : ∀ cur w rest,
  isspace w = true →
  split_go cur (pre +:+ String w rest)
  = (split_go cur pre ++ split_go EmptyString rest)%list.
Proof.
  induction pre as [|c pre IH]; intros cur w rest Hw;
    [change (EmptyString +:+ String w rest) with (String w rest)
    |rewrite append_cons]; simpl.
  - rewrite Hw. by destruct (decide (cur = EmptyString)).
  - destruct (isspace c).
    + destruct (decide (cur = EmptyString)); simpl; by rewrite IH.
    + by rewrite IH.
Qed.

(** A string without white space is one token. *)
Lemma split_go_token t : ∀ cur,
  all_chars nonspace t = true → cur +:+ t ≠ EmptyString →
  split_go cur t = [cur +:+ t].
Proof.
  induction t as [|c t IH]; intros cur Ht Hne; simpl.
  - rewrite append_empty_r in *. by rewrite decide_False.
  - simpl in Ht. apply andb_prop in Ht as [Hc Ht].
    unfold nonspace in Hc. apply negb_true_iff in Hc. rewrite Hc.
    rewrite IH; [by rewrite append_snoc|done|by rewrite append_snoc].
Qed.

Lemma split_at_go_sep sep t : ∀ cur rest,
  all_chars (λ c, bool_decide (c ≠ sep)) t = true →
  split_at_go sep cur (t +:+ String sep rest)
  = (cur +:+ t) :: split_at_go sep EmptyString rest.
Proof.
  induction t as [|c t IH]; intros cur rest Ht;
    [change (EmptyString +:+ String sep rest) with (String sep rest)
    |rewrite append_cons]; simpl.
  - by rewrite decide_True, append_empty_r.
  - simpl in Ht. apply andb_prop in Ht as [Hc Ht]. apply bool_decide_eq_true in Hc.
    rewrite decide_False by done. by rewrite IH, append_snoc.
Qed.

Lemma split_at_go_piece sep t : ∀ cur,
  all_chars (λ c, bool_decide (c ≠ sep)) t = true →
  split_at_go sep cur t = [cur +:+ t].
Proof.
  induction t as [|c t IH]; intros cur Ht; simpl.
  - by rewrite append_empty_r.
  - simpl in Ht. apply andb_prop in Ht as [Hc Ht]. apply bool_decide_eq_true in Hc.
    rewrite decide_False by done. by rewrite IH, append_snoc.
Qed.

Lemma numeral_nonspace c : numeral c = true → nonspace c = true.
Proof. destruct c as [[] [] [] [] [] [] [] []]; by vm_compute. Qed.

Lemma numeral_noncomma c : numeral c = true → noncomma c = true.
Proof. destruct c as [[] [] [] [] [] [] [] []]; by vm_compute. Qed.

Lemma numeral_pretty_N_go x : ∀ s,
  all_chars numeral s = true → all_chars numeral (pretty_N_go x s) = true.
Proof.
  induction (N.lt_wf_0 x) as [x _ IH]. intros s Hs.
  destruct (decide (x = 0)%N) as [->|Hx]; [by rewrite pretty_N_go_0|].
  rewrite pretty_N_go_step by lia. apply IH; [apply N.div_lt; lia|].
  simpl. rewrite Hs, andb_true_r. unfold pretty_N_char. by repeat case_match.
Qed.

Lemma numeral_pretty (z : Z) : all_chars numeral (pretty z) = true.
Proof.
  assert (∀ p : positive, all_chars numeral (pretty p) = true) as Hp.
  { intros p. unfold pretty, pretty_positive, pretty, pretty_N.
    rewrite decide_False by done. by apply numeral_pretty_N_go. }
  destruct z as [|p|p]; unfold pretty, pretty_Z.
  - done.
  - apply Hp.
  - rewrite all_chars_app, Hp. done.
Qed.

Lemma comma_append (s : string) : ("," +:+ s)%string = String comma s.
Proof. done. Qed.

Lemma TAB_append (s : string) : TAB +:+ s = String tab s.
Proof. done. Qed.

Lemma append_nonempty (s : string) c t : s +:+ String c t ≠ EmptyString.
Proof. by destruct s. Qed.

(** A quadruple as [save_rois] writes it is one token of four pieces. *)
Lemma split_quad w h x y : split (quad w h x y) = [quad w h x y].
Proof.
  unfold split. rewrite split_go_token; [done| |apply append_nonempty].
  unfold quad. rewrite !all_chars_app.
  rewrite !(all_chars_impl _ _ _ numeral_nonspace (numeral_pretty _)). done.
Qed.

Lemma split_at_quad w h x y :
  split_at comma (quad w h x y) = [pretty w; pretty h; pretty x; pretty y].
Proof.
  assert (∀ z, all_chars (λ c, bool_decide (c ≠ comma)) (pretty z) = true) as Hz
    by (intros z; apply (all_chars_impl _ _ _ numeral_noncomma (numeral_pretty z))).
  unfold split_at, quad.
  rewrite !comma_append, !split_at_go_sep by done. by rewrite split_at_go_piece by done.
Qed.

(** The tokens of a text that ends in tab-separated quadruples and a
    newline: those of what precedes the tab, then the quadruples. *)
Lemma split_record pre quads :
  Forall (λ q, ∃ w h x y, q = quad w h x y) quads → quads ≠ [] →
  split (pre +:+ TAB +:+ join TAB quads +:+ NL) = (split pre ++ quads)%list.
Proof.
  intros Hq Hne. unfold split.
  rewrite TAB_append, split_go_space by done. f_equal. clear pre.
  induction Hq as [|q quads (w & h & x & y & ->) Hq IH]; [done|]. clear Hne.
  destruct quads as [|q' quads].
  - change (join TAB [quad w h x y] +:+ NL) with (quad w h x y +:+ String newline EmptyString).
    rewrite split_go_space by done. fold (split (quad w h x y)).
    by rewrite split_quad.
  - change (join TAB (quad w h x y :: q' :: quads))
      with (quad w h x y +:+ TAB +:+ join TAB (q' :: quads)).
    rewrite !append_assoc, TAB_append, split_go_space by done. fold (split (quad w h x y)).
    rewrite split_quad. simpl. f_equal. by apply IH.
Qed.

Section label_rois.

Context {Frame Float : Type}.
Variable ensure_dir : string → result unit.
Variable read_video : string → option Frame.
Variable float : string → option Float.
Variable draw : Frame → list (box Float) → result Frame.
Variable imwrite : string → Frame → result (option string).

Lemma floats_Ok pieces x :
  floats Float float pieces = Ok x →
  length x = length pieces ∧ Forall (λ s, is_Some (float s)) pieces.
Proof.
  revert x. induction pieces as [|s pieces IH]; intros x; simpl.
  - by intros [= <-].
  - destruct (float s) as [v|] eqn:Hs; [|done].
    destruct (floats Float float pieces) as [vs|]; simpl; [|done].
    intros [= <-]. destruct (IH vs eq_refl) as [Hl Hall].
    split; [simpl; by rewrite Hl|].
    constructor; [by rewrite Hs|done].
Qed.

Lemma floats_raises pieces e : floats Float float pieces = Err e → e = ValueError.
Proof.
  induction pieces as [|s pieces IH]; simpl; [done|].
  destruct (float s); [|by intros [= <-]].
  destruct (floats Float float pieces); simpl; [done|]. intros [= <-]. by apply IH.
Qed.

Lemma box_of_raises token e :
  box_of Float float token = Err e → e = ValueError ∨ e = Numpy.IndexError.
Proof.
  unfold box_of. destruct (floats _ _ _) as [x|e'] eqn:Hx; simpl.
  - destruct x as [|? [|? [|? [|? [|? ?]]]]]; try done; intros [= <-]; by right.
  - intros [= <-]. left. by eapply floats_raises.
Qed.

Lemma box_of_Ok token b :
  box_of Float float token = Ok b →
  ∃ x, floats Float float (split_at comma token) = Ok x ∧ (5 ≤ length x)%nat.
Proof.
  unfold box_of. destruct (floats _ _ _) as [x|]; simpl; [|done].
  destruct x as [|? [|? [|? [|? [|? ?]]]]]; try done.
  intros _. eexists. split; [done|]. simpl. lia.
Qed.

Lemma boxes_Ok tokens bs :
  boxes Float float tokens = Ok bs →
  length bs = length tokens ∧
  Forall (λ t, ∃ x, floats Float float (split_at comma t) = Ok x ∧ (5 ≤ length x)%nat)
         tokens.
Proof.
  revert bs. induction tokens as [|t tokens IH]; intros bs; simpl.
  - by intros [= <-].
  - destruct (box_of Float float t) as [b|] eqn:Hb; simpl; [|done].
    destruct (boxes Float float tokens) as [bs'|]; simpl; [|done].
    intros [= <-]. destruct (IH bs' eq_refl) as [Hl Hall].
    split; [simpl; by rewrite Hl|].
    constructor; [by eapply box_of_Ok|done].
Qed.

Lemma boxes_raises tokens e :
  boxes Float float tokens = Err e → e = ValueError ∨ e = Numpy.IndexError.
Proof.
  induction tokens as [|t tokens IH]; simpl; [done|].
  destruct (box_of Float float t) as [b|e'] eqn:Hb; simpl.
  - destruct (boxes Float float tokens); simpl; [done|]. intros [= <-]. by apply IH.
  - intros [= <-]. by eapply box_of_raises.
Qed.

Lemma floats_total pieces :
  Forall (λ s, is_Some (float s)) pieces →
  ∃ x, floats Float float pieces = Ok x ∧ length x = length pieces.
Proof.
  induction 1 as [|s pieces [v Hv] _ (x & Hx & Hl)]; [by exists []|].
  exists (v :: x). simpl. rewrite Hv, Hx. simpl. by rewrite Hl.
Qed.

Lemma floats_bad pieces :
  Exists (λ s, float s = None) pieces → floats Float float pieces = Err ValueError.
Proof.
  induction 1 as [s pieces Hs|s pieces _ IH]; simpl.
  - by rewrite Hs.
  - destruct (float s); [|done]. by rewrite IH.
Qed.

(** The exception of lines 16-18 is that of the first token that gives
    no box: [ValueError] when one of its fields is no float, whatever
    their number, and [IndexError] when all of them are floats and there
    are fewer than five.  The tokens after it are not looked at. *)
Theorem boxes_first_bad good bad rest :
  Forall (λ t, ∃ b, box_of Float float t = Ok b) good →
  (Exists (λ s, float s = None) (split_at comma bad) →
     boxes Float float (good ++ bad :: rest) = Err ValueError) ∧
  (Forall (λ s, is_Some (float s)) (split_at comma bad) →
   (length (split_at comma bad) < 5)%nat →
     boxes Float float (good ++ bad :: rest) = Err Numpy.IndexError).
Proof.
  intros Hgood.
  assert (∀ e, box_of Float float bad = Err e →
               boxes Float float (good ++ bad :: rest) = Err e) as Hfirst.
  { intros e Hbad. induction Hgood as [|t good [b Ht] _ IH]; simpl.
    - by rewrite Hbad.
    - rewrite Ht. simpl. by rewrite IH. }
  split.
  - intros Hbad. apply Hfirst. unfold box_of. by rewrite floats_bad.
  - intros Hall Hlen. apply Hfirst. unfold box_of.
    destruct (floats_total _ Hall) as (x & -> & Hl). simpl.
    destruct x as [|? [|? [|? [|? [|? ?]]]]]; try done. simpl in Hl. lia.
Qed.

Let label_rois' := label_rois Frame Float ensure_dir read_video float draw imwrite.

(** [label_rois] returns only when there is a frame and every token of
    the region file has at least five comma-separated fields, each a
    float for Python; the only file it changes is [outfile], and none when
    it raises. *)
Theorem label_rois_five_fields fs video roifile outfile :
  ((label_rois' fs video roifile outfile).1 = Ok () →
   ∃ frame text,
     ensure_dir outfile = Ok () ∧ read_video video = Some frame ∧
     fs !! roifile = Some text ∧
     Forall (λ t, ∃ x, floats Float float (split_at comma t) = Ok x ∧
                       (5 ≤ length x)%nat ∧
                       Forall (λ s, is_Some (float s)) (split_at comma t))
            (split text)) ∧
  (∀ other, other ≠ outfile →
     (label_rois' fs video roifile outfile).2 !! other = fs !! other) ∧
  (raises (label_rois' fs video roifile outfile).1 →
   (label_rois' fs video roifile outfile).2 = fs).
Proof.
  unfold label_rois', label_rois, annotated. split; [|split].
  - destruct (ensure_dir outfile) as [[]|]; simpl; [|done].
    destruct (read_video video) as [frame|]; simpl; [|done].
    destruct (fs !! roifile) as [text|]; simpl; [|done].
    destruct (boxes Float float (split text)) as [bs|] eqn:Hb; simpl; [|done].
    intros _. exists frame, text. repeat (split; [done|]).
    destruct (boxes_Ok _ _ Hb) as [_ Hall].
    eapply Forall_impl; [exact Hall|]. simpl. intros t (x & Hx & Hlen).
    exists x. repeat (split; [done|]). by destruct (floats_Ok _ _ Hx).
  - intros other Hne.
    destruct (_ ←! ensure_dir outfile; _) as [frame|]; simpl; [|done].
    destruct (imwrite outfile frame) as [[image|]|]; simpl; [|done..].
    by rewrite lookup_insert_ne.
  - intros [e He].
    destruct (_ ←! ensure_dir outfile; _) as [frame|]; simpl in *; [|done].
    by destruct (imwrite outfile frame) as [[image|]|].
Qed.

(** [label_rois] takes no file that [bridgedetect.save_rois] has written
    a record of at least one region to, whatever the file held before:
    the quadruples of the record are tokens of four fields, so that the
    run raises [ValueError] or [IndexError] once it has a frame, and
    writes nothing. *)
Theorem label_rois_rejects_record abspath fs rois roifile imagename append
    video outfile :
  Forall (λ x, length x = 4%nat) rois → rois ≠ [] →
  ∃ e,
    label_rois' (save_rois abspath fs rois roifile imagename append).2
                video roifile outfile
      = (Err e, (save_rois abspath fs rois roifile imagename append).2) ∧
    (ensure_dir outfile = Ok () → is_Some (read_video video) →
     e = ValueError ∨ e = Numpy.IndexError).
Proof.
  intros Hrois Hne.
  destruct (format_rois_quads rois Hrois) as (quads & Hq & Hall).
  rewrite (save_rois_Ok abspath fs rois roifile imagename append
             (abspath imagename +:+ TAB +:+ join TAB quads +:+ NL))
    by (unfold record; by rewrite Hq).
  simpl. set (fs1 := <[roifile := _]> fs).
  unfold label_rois', label_rois, annotated.
  destruct (ensure_dir outfile) as [[]|e0]; simpl;
    [|exists e0; split; [done|by intros [=]]].
  destruct (read_video video) as [frame|]; simpl;
    [|exists RuntimeError; split; [done|by intros _ [? [=]]]].
  unfold fs1 at 1. rewrite lookup_insert_eq. simpl.
  rewrite <-append_assoc, split_record; first last.
  - intros ->. apply Forall2_length in Hall. by destruct rois.
  - clear -Hall. induction Hall as [|x q rois quads (w & h & xl & yt & _ & ->) _ IH];
      constructor; [by exists w, h, xl, yt|done].
  - destruct (boxes Float float _) as [bs|e] eqn:Hb; simpl.
    + exfalso. destruct (boxes_Ok _ _ Hb) as [_ Hok].
      apply Forall_app in Hok as [_ Hok].
      destruct Hall as [|x q rois' quads' (w & h & xl & yt & _ & ->) _]; [done|].
      apply Forall_cons in Hok as [(x' & Hx' & Hlen) _].
      rewrite split_at_quad in Hx'. apply floats_Ok in Hx' as [Hl _].
      simpl in Hl. lia.
    + exists e. split; [done|]. intros _ _. by eapply boxes_raises.
Qed.

End label_rois.

Lemma boxes_first_bad_field :
  boxes string numerals ["10,20,30,40,0"%string; "1,2,x"%string; "7"%string]
    = Err ValueError.
Proof.
  refine (proj1 (boxes_first_bad numerals ["10,20,30,40,0"%string] "1,2,x"%string
                   ["7"%string] _) _).
  - repeat constructor. by eexists.
  - apply Exists_cons_tl, Exists_cons_tl, Exists_cons_hd. reflexivity.
Defined.

Lemma label_rois_five_fields_two_boxes :
  ∃ frame text,
    Ok () = Ok () ∧ Some 7%nat = Some frame ∧
    two_boxes !! "rois.txt"%string = Some text ∧
    Forall (λ t, ∃ x, floats string numerals (split_at comma t) = Ok x ∧
                      (5 ≤ length x)%nat ∧
                      Forall (λ s, is_Some (numerals s)) (split_at comma t))
           (split text).
Proof.
  apply (proj1 (label_rois_five_fields (Frame:=nat) (λ _, Ok ()) (λ _, Some 7%nat)
                  numerals (λ f _, Ok f) (λ _ _, Ok (Some "image"%string))
                  two_boxes "a.avi"%string "rois.txt"%string "out/a.png"%string)).
  reflexivity.
Defined.

Lemma label_rois_rejects_record_two_rois :
  ∃ e,
    label_rois nat string (λ _, Ok ()) (λ _, Some 7%nat) numerals (λ f _, Ok f)
               (λ _ _, Ok (Some "image"%string))
               (save_rois (λ name, name) ∅ [[30; 20; 5; 7]; [4; 4; 100; 50]]
                          "rois.txt"%string "/data/a.avi"%string true).2
               "a.avi"%string "rois.txt"%string "out/a.png"%string
      = (Err e, (save_rois (λ name, name) ∅ [[30; 20; 5; 7]; [4; 4; 100; 50]]
                           "rois.txt"%string "/data/a.avi"%string true).2) ∧
    (Ok () = Ok () → is_Some (Some 7%nat) →
     e = ValueError ∨ e = Numpy.IndexError).
Proof.
  apply (label_rois_rejects_record (Frame:=nat) (λ _, Ok ()) (λ _, Some 7%nat)
           numerals (λ f _, Ok f) (λ _ _, Ok (Some "image"%string))
           (λ name, name) ∅ [[30; 20; 5; 7]; [4; 4; 100; 50]]
           "rois.txt"%string "/data/a.avi"%string true
           "a.avi"%string "out/a.png"%string).
  - repeat constructor.
  - done.
Defined.

End RoiLabelProps.
